(** * needlehaystack/providers/openai.py: the sentence-aware token truncation

    A shallow embedding of [OpenAI.decode_tokens] together with the pieces of
    the Python runtime it calls ([list] and [str] slicing, [str.rfind],
    [str.rstrip], [max]), and the properties of the truncation routine.
    The constructor, [encode_text_to_tokens] and [generate_prompt] follow.

    Python values are modelled as follows.
    - [int] is [Z].
    - [str] is a sequence of Unicode code points: [list Z].  An index into a
      [str] therefore counts code points, as in Python.
    - [list[int]] (the token sequence) is [list Z].
    - [Optional[int]] is [option Z].
    - A call that may raise returns a [result]; the only such call in the
      method is [self.tokenizer.decode]. *)

From Stdlib Require Import String Ascii Bool ZArith Lia List Permutation.
Import ListNotations.
Local Open Scope Z_scope.

Set Implicit Arguments.

(** ** Python values *)

Definition char := Z.
Definition str := list char.
Definition token := Z.

(** An ASCII literal as a Python [str]. *)
Fixpoint of_string (s : string) : str :=
  match s with
  | EmptyString => []
  | String a s' => Z.of_N (N_of_ascii a) :: of_string s'
  end.

(** ** Results of calls that may raise *)

Inductive result (E A : Type) : Type :=
| Ok (a : A)
| Raise (e : E).

Arguments Ok {E A} a.
Arguments Raise {E A} e.

Definition bind {E A B} (r : result E A) (k : A -> result E B) : result E B :=
  match r with
  | Ok a => k a
  | Raise e => Raise e
  end.

Definition rmap {E A B} (f : A -> B) (r : result E A) : result E B :=
  bind r (fun a => Ok (f a)).

Declare Scope result_scope.
Delimit Scope result_scope with result.
Notation "x <- c ;; k" := (bind c (fun x => k))
  (at level 61, c at next level, right associativity) : result_scope.

(** ** The Python builtins the method uses *)

Module Py.

(** [l[:stop]] for an [int] [stop].  A negative [stop] counts from the end
    and is clipped at the start of the sequence; a [stop] past the end is
    clipped at the end.  Slicing never raises. *)
Definition slice_to {A : Type} (l : list A) (stop : Z) : list A :=
  if stop <? 0
  then firstn (length l - Z.to_nat (- stop))%nat l
  else firstn (Z.to_nat stop) l.

(** The code points [str.rstrip()] removes: those for which CPython's
    [_PyUnicode_IsWhitespace] answers true. *)
Definition isspace (c : char) : bool :=
  ((0x09 <=? c) && (c <=? 0x0D))
  || ((0x1C <=? c) && (c <=? 0x20))
  || (c =? 0x85) || (c =? 0xA0) || (c =? 0x1680)
  || ((0x2000 <=? c) && (c <=? 0x200A))
  || (c =? 0x2028) || (c =? 0x2029) || (c =? 0x202F) || (c =? 0x205F)
  || (c =? 0x3000).

Fixpoint drop_while {A : Type} (p : A -> bool) (l : list A) : list A :=
  match l with
  | [] => []
  | a :: l' => if p a then drop_while p l' else l
  end.

(** [s.rstrip()]: [s] without its trailing run of whitespace. *)
Definition rstrip (s : str) : str :=
  rev (drop_while isspace (rev s)).

(** [s.startswith(sub)]. *)
Fixpoint startswith (s sub : str) {struct sub} : bool :=
  match sub, s with
  | [], _ => true
  | _ :: _, [] => false
  | a :: sub', b :: s' => (a =? b) && startswith s' sub'
  end.

(** The scan of [s.rfind(sub)]: try the start positions [i], [i - 1], ...,
    [0] in turn and answer the first at which [sub] is found, or [-1]. *)
Fixpoint rfind_from (s sub : str) (i : nat) : Z :=
  if startswith (skipn i s) sub then Z.of_nat i
  else match i with
       | O => -1
       | S j => rfind_from s sub j
       end.

(** [s.rfind(sub)]: the highest index at which [sub] occurs in [s], or [-1]
    when it does not occur. *)
Definition rfind (s sub : str) : Z :=
  rfind_from s sub (length s).

End Py.

(** ** The provider *)

Section Provider.

(** [E] is the type of the exceptions the tokenizer may raise; [Client] and
    [Kwargs] are the types of the remote API client and of the model
    configuration, which the truncation routine never inspects. *)
Variables (E Client Kwargs : Type).

(** The tokenizer held by the provider ([tiktoken]'s encoding object), seen
    through the two methods the provider calls. *)
Record Tokenizer : Type := {
  encode : str -> result E (list token);
  decode : list token -> result E str
}.

(** The attributes [__init__] sets on the provider object. *)
Record OpenAI : Type := {
  model_name : str;
  model_kwargs : Kwargs;
  api_key : option str;
  base_url : option str;
  model : Client;
  tokenizer : Tokenizer
}.

(** [sentence_endings]: '. ', '! ', '? ', U+3002, U+FF01, U+FF1F. *)
Definition sentence_endings : list str :=
  [ [0x2E; 0x20]; [0x21; 0x20]; [0x3F; 0x20]; [0x3002]; [0xFF01]; [0xFF1F] ].

(** The loop over [sentence_endings]: [last_end] starts at [-1] and each
    iteration replaces it by [max(last_end, truncated_text.rfind(ending))]. *)
Definition find_last_end (truncated_text : str) (endings : list str) : Z :=
  fold_left (fun last_end ending => Z.max last_end (Py.rfind truncated_text ending))
            endings (-1).

(** [OpenAI.decode_tokens(self, tokens, context_length, preserve_sentence)]. *)
Definition decode_tokens (self : OpenAI) (tokens : list token)
    (context_length : option Z) (preserve_sentence : bool) : result E str :=
  match context_length with
  | None => decode (tokenizer self) tokens
  | Some n =>
      (truncated_text <- decode (tokenizer self) (Py.slice_to tokens n) ;;
       if negb preserve_sentence then Ok (Py.rstrip truncated_text)
       else
         let last_end := find_last_end truncated_text sentence_endings in
         if negb (last_end =? -1)
         then Ok (Py.rstrip (Py.slice_to truncated_text (last_end + 1)))
         else Ok (Py.rstrip truncated_text))%result
  end.

(** The statements of the method that follow the decoding of the slice, as a
    function of [truncated_text]. *)
Definition finish (truncated_text : str) (preserve_sentence : bool) : str :=
  if negb preserve_sentence then Py.rstrip truncated_text
  else
    let last_end := find_last_end truncated_text sentence_endings in
    if negb (last_end =? -1)
    then Py.rstrip (Py.slice_to truncated_text (last_end + 1))
    else Py.rstrip truncated_text.

End Provider.

Arguments decode_tokens {E Client Kwargs} self tokens context_length preserve_sentence.

(** ** A concrete provider, for running the method *)

(** A tokenizer with one token per code point: token [t] decodes to the
    one-character string [t], and a token outside the Unicode range is an
    invalid token id. *)
Inductive KeyError : Type := InvalidToken (t : token).

Fixpoint char_decode (tokens : list token) : result KeyError str :=
  match tokens with
  | [] => Ok []
  | t :: rest =>
      if (0 <=? t) && (t <=? 0x10FFFF)
      then bind (char_decode rest) (fun s => Ok (t :: s))
      else Raise (InvalidToken t)
  end.

Definition char_tokenizer : Tokenizer KeyError :=
  {| encode := fun s => Ok s; decode := char_decode |}.

Definition char_provider : OpenAI KeyError unit unit :=
  {| model_name := of_string "gpt-3.5-turbo-0125";
     model_kwargs := tt;
     api_key := None;
     base_url := None;
     model := tt;
     tokenizer := char_tokenizer |}.

(** The same vocabulary behind a differently configured provider. *)
Definition other_provider : OpenAI KeyError unit unit :=
  {| model_name := of_string "MiniMax-Text-01";
     model_kwargs := tt;
     api_key := Some (of_string "k");
     base_url := Some (of_string "u");
     model := tt;
     tokenizer := char_tokenizer |}.

(** A tokenizer whose [decode] never raises: a token outside the Unicode
    range decodes to the replacement character U+FFFD. *)
Definition lossy_decode (tokens : list token) : result KeyError str :=
  Ok (map (fun t => if (0 <=? t) && (t <=? 0x10FFFF) then t else 0xFFFD) tokens).

Definition lossy_provider : OpenAI KeyError unit unit :=
  {| model_name := of_string "gpt-3.5-turbo-0125";
     model_kwargs := tt;
     api_key := None;
     base_url := None;
     model := tt;
     tokenizer := {| encode := fun s => Ok s; decode := lossy_decode |} |}.

(** ** The method as a computation over the objects it can reach

    Python passes objects by reference.  A call reaches the provider object
    [self] and the list objects of the program; [tokens] is a reference to
    one of them.  [tokens[:n]] builds a new list object; [tokenizer.decode]
    is foreign code that receives a reference and may do to the world
    whatever it likes.  Strings and integers are immutable values. *)

Section Method.

Variables (E Client Kwargs : Type).

Definition ref : Type := nat.

Record World : Type := {
  w_self : OpenAI E Client Kwargs;
  w_lists : list (list token)
}.

(** The items of the list object behind a reference. *)
Definition deref (w : World) (r : ref) : list token := nth r (w_lists w) [].

Definition M (A : Type) : Type := World -> result E A * World.

Definition ret {A} (a : A) : M A := fun w => (Ok a, w).

Definition bindM {A B} (c : M A) (k : A -> M B) : M B :=
  fun w =>
    match c w with
    | (Ok a, w') => k a w'
    | (Raise e, w') => (Raise e, w')
    end.

(** Reading the attribute [self.tokenizer]. *)
Definition get_tokenizer : M (Tokenizer E) :=
  fun w => (Ok (tokenizer (w_self w)), w).

(** [r[:n]]: a new list object holding the slice of the items of [r]. *)
Definition slice_list (r : ref) (n : Z) : M ref :=
  fun w =>
    (Ok (length (w_lists w)),
     {| w_self := w_self w;
        w_lists := w_lists w ++ [Py.slice_to (deref w r) n] |}).

(** The foreign method [decode] of a tokenizer object, called on a
    reference. *)
Variable decode_call : Tokenizer E -> ref -> M str.

Notation "x <- c ;; k" := (bindM c (fun x => k))
  (at level 61, c at next level, right associativity).

(** [decode_tokens] on a reference [tokens].  Without a limit the caller's
    own list object is handed to the tokenizer; with one, the new slice. *)
Definition decode_tokens_m (tokens : ref) (context_length : option Z)
    (preserve_sentence : bool) : M str :=
  match context_length with
  | None =>
      tk <- get_tokenizer ;;
      decode_call tk tokens
  | Some n =>
      tk <- get_tokenizer ;;
      sliced <- slice_list tokens n ;;
      truncated_text <- decode_call tk sliced ;;
      if negb preserve_sentence then ret (Py.rstrip truncated_text)
      else
        let last_end := find_last_end truncated_text sentence_endings in
        if negb (last_end =? -1)
        then ret (Py.rstrip (Py.slice_to truncated_text (last_end + 1)))
        else ret (Py.rstrip truncated_text)
  end.

(** The world after the slice of [tokens] has been built. *)
Definition with_slice (w : World) (tokens : ref) (n : Z) : World :=
  {| w_self := w_self w;
     w_lists := w_lists w ++ [Py.slice_to (deref w tokens) n] |}.

(** The world [w'] still has the provider and every list object of [w] as
    they were; it may hold new list objects. *)
Definition preserves (w w' : World) : Prop :=
  w_self w' = w_self w /\
  (length (w_lists w) <= length (w_lists w'))%nat /\
  forall r, (r < length (w_lists w))%nat -> deref w' r = deref w r.

(** A tokenizer whose [decode] has no side effect: it reads the list it is
    given and answers as the function [decode] of the tokenizer does. *)
Definition decode_reads_only : Prop :=
  forall tk r w, decode_call tk r w = (decode tk (deref w r), w).

(** A tokenizer whose [decode] may change the list object it is given, and
    make new ones, but nothing else. *)
Definition decode_touches_argument_only : Prop :=
  forall tk r w,
    w_self (snd (decode_call tk r w)) = w_self w /\
    (length (w_lists w) <= length (w_lists (snd (decode_call tk r w))))%nat /\
    forall r', r' <> r -> (r' < length (w_lists w))%nat ->
               deref (snd (decode_call tk r w)) r' = deref w r'.

End Method.

(** A [decode] without side effects, and one that empties the list it was
    given after reading it. *)
Definition pure_decode_call {E Client Kwargs : Type}
    (tk : Tokenizer E) (r : ref) : M E Client Kwargs str :=
  fun w => (decode tk (deref w r), w).

Fixpoint clear_at (r : nat) (ls : list (list token)) : list (list token) :=
  match ls, r with
  | [], _ => []
  | _ :: rest, O => [] :: rest
  | l :: rest, S r' => l :: clear_at r' rest
  end.

Definition clearing_decode_call {E Client Kwargs : Type}
    (tk : Tokenizer E) (r : ref) : M E Client Kwargs str :=
  fun w => (decode tk (deref w r),
            {| w_self := w_self w; w_lists := clear_at r (w_lists w) |}).

(** ** The notions the specification speaks of *)

(** [sub] occurs in [s] at index [i]. *)
Definition occurs_at (sub s : str) (i : nat) : Prop :=
  exists pre post, s = pre ++ sub ++ post /\ length pre = i.

(** What [s.rfind(sub)] answers: the greatest index of an occurrence, or
    [-1] when there is none. *)
Inductive rfind_spec (s sub : str) : Z -> Prop :=
| rfind_found k :
    occurs_at sub s k ->
    (forall j, occurs_at sub s j -> (j <= k)%nat) ->
    rfind_spec s sub (Z.of_nat k)
| rfind_absent :
    (forall j, ~ occurs_at sub s j) ->
    rfind_spec s sub (-1).

(** What the loop leaves in [last_end]: the greatest index at which one of
    the [endings] occurs, or [-1] when none of them occurs. *)
Inductive last_end_spec (s : str) (endings : list str) : Z -> Prop :=
| last_end_found k e :
    In e endings -> occurs_at e s k ->
    (forall e' j, In e' endings -> occurs_at e' s j -> (j <= k)%nat) ->
    last_end_spec s endings (Z.of_nat k)
| last_end_absent :
    (forall e j, In e endings -> ~ occurs_at e s j) ->
    last_end_spec s endings (-1).

(** A sentence-boundary marker occurs in [s]: [mk] at index [i]. *)
Definition marker_at (s mk : str) (i : nat) : Prop :=
  In mk sentence_endings /\ occurs_at mk s i.

Definition has_marker (s : str) : Prop :=
  exists mk i, marker_at s mk i.

(** The occurrence of [mk] at [i] is the one with the greatest ending index
    among the occurrences of all markers in [s]. *)
Definition rightmost_marker (s mk : str) (i : nat) : Prop :=
  marker_at s mk i /\
  forall mk' i', marker_at s mk' i' -> (i' + length mk' <= i + length mk)%nat.

(** The six terminator characters: '.', '!', '?', U+3002, U+FF01, U+FF1F. *)
Definition terminators : list char :=
  [0x2E; 0x21; 0x3F; 0x3002; 0xFF01; 0xFF1F].

(** The sentence-boundary snap, in the specification's words: the text up to
    and including the terminator of the right-most marker, or the whole text
    when no marker occurs. *)
Inductive snapped (s : str) : str -> Prop :=
| snapped_marker mk i :
    rightmost_marker s mk i -> snapped s (firstn (i + 1) s)
| snapped_none :
    ~ has_marker s -> snapped s s.

(** The stripping rule for a given [preserve_sentence]: right-strip when
    false; snap, then right-strip, when true. *)
Definition stripping_rule (preserve_sentence : bool) (s out : str) : Prop :=
  if preserve_sentence
  then exists r, snapped s r /\ out = Py.rstrip r
  else out = Py.rstrip s.

(** [s] has no trailing whitespace. *)
Definition no_trailing_space (s : str) : Prop :=
  forall p c, s = p ++ [c] -> Py.isspace c = false.

(** Two results agree in outcome, and the first is no longer than the
    second when both are strings. *)
Definition no_longer {E} (r1 r2 : result E str) : Prop :=
  match r1, r2 with
  | Ok a, Ok b => (length a <= length b)%nat
  | Raise e1, Raise e2 => e1 = e2
  | _, _ => False
  end.

(** ** The other methods of the provider *)

(** [OpenAI.encode_text_to_tokens(self, text)]: the tokens, or what the
    tokenizer's [encode] raises (as on a text that spells a special token). *)
Definition encode_text_to_tokens {E Client Kwargs : Type}
    (self : OpenAI E Client Kwargs) (text : str) : result E (list token) :=
  encode (tokenizer self) text.

(** A chat message: a [dict] from [str] to [str], as the list of its items
    in insertion order. *)
Definition message : Type := list (str * str).

(** [d.get(key)] on such a dict. *)
Fixpoint str_eqb (a b : str) : bool :=
  match a, b with
  | [], [] => true
  | x :: a', y :: b' => (x =? y) && str_eqb a' b'
  | _, _ => false
  end.

Fixpoint dict_get {V : Type} (d : list (str * V)) (key : str) : option V :=
  match d with
  | [] => None
  | (k, v) :: d' => if str_eqb k key then Some v else dict_get d' key
  end.

(** [OpenAI.generate_prompt(self, context, retrieval_question)].  The
    f-string of the last message is the question followed by a fixed
    sentence. *)
Definition generate_prompt {E Client Kwargs : Type}
    (self : OpenAI E Client Kwargs) (context retrieval_question : str) : list message :=
  [ [ (of_string "role", of_string "system");
      (of_string "content",
       of_string "You are a helpful AI bot that answers questions for a user. Keep your response short and direct") ];
    [ (of_string "role", of_string "user");
      (of_string "content", context) ];
    [ (of_string "role", of_string "user");
      (of_string "content",
       retrieval_question ++
       of_string " Don't give information outside the document or repeat your findings") ] ].

(** The values of a model configuration: an [int], or a [float] kept as the
    literal that denotes it. *)
Inductive number : Type :=
| Int (z : Z)
| Float (literal : str).

(** A model configuration: a [dict] from [str] to numbers, as the list of
    its items in insertion order. *)
Definition kwargs : Type := list (str * number).

(** [OpenAI.DEFAULT_MODEL_KWARGS]. *)
Definition DEFAULT_MODEL_KWARGS : kwargs :=
  [ (of_string "max_tokens", Int 350); (of_string "temperature", Int 0) ].

Section Init.

(** The two constructors [__init__] calls: [AsyncOpenAI(api_key=, base_url=)]
    and [tiktoken.encoding_for_model]; either may raise. *)
Variables (E Client : Type).
Variable AsyncOpenAI : option str -> option str -> result E Client.
Variable encoding_for_model : str -> result E (Tokenizer E).

(** [OpenAI.__init__(self, model_name, model_kwargs, api_key, base_url)]:
    the provider object it leaves behind, or what it raises. *)
Definition __init__ (model_name : str) (model_kwargs : kwargs)
    (api_key base_url : option str) : result E (OpenAI E Client kwargs) :=
  let self_model_kwargs :=
    if str_eqb model_name (of_string "MiniMax-Text-01")
    then [ (of_string "max_tokens", Int 350);
           (of_string "temperature", Float (of_string "0.1")) ]
    else model_kwargs in
  (self_model <- AsyncOpenAI api_key base_url ;;
   self_tokenizer <- encoding_for_model (of_string "gpt-3.5-turbo") ;;
   Ok {| model_name := model_name;
         model_kwargs := self_model_kwargs;
         api_key := api_key;
         base_url := base_url;
         model := self_model;
         tokenizer := self_tokenizer |})%result.

End Init.

(** ** Further notions used in the properties *)

(** [p] is a prefix of [s]. *)
Definition is_prefix (p s : str) : Prop := exists rest, s = p ++ rest.

(** [s] consists of whitespace only. *)
Definition all_space (s : str) : Prop := forall c, In c s -> Py.isspace c = true.

(** * Properties *)

Example ex_two_sentences :
  decode_tokens char_provider (of_string "Hello world. This is a test. Keep going") (Some 100) true
  = Ok (of_string "Hello world. This is a test.").
Proof. vm_compute. reflexivity. Qed.

Example ex_no_terminator :
  decode_tokens char_provider (of_string "No terminators here") (Some 19) true
  = Ok (of_string "No terminators here").
Proof. vm_compute. reflexivity. Qed.

Example ex_zero :
  decode_tokens char_provider (of_string "Hello.  ") (Some 0) true = Ok [].
Proof. vm_compute. reflexivity. Qed.

Example ex_rstrip :
  decode_tokens char_provider (of_string "Hello.   x  ") (Some 9) false = Ok (of_string "Hello.").
Proof. vm_compute. reflexivity. Qed.

(** ** Facts about the builtins *)

Module PyFacts.
Import Py.

Lemma slice_to_nonneg {A} (l : list A) (stop : Z) :
  0 <= stop -> slice_to l stop = firstn (Z.to_nat stop) l.
Proof.
  intros H. unfold slice_to.
  destruct (Z.ltb_spec stop 0); [lia | reflexivity].
Qed.

Lemma slice_to_all {A} (l : list A) (stop : Z) :
  Z.of_nat (length l) <= stop -> slice_to l stop = l.
Proof.
  intros H. rewrite slice_to_nonneg by lia.
  apply firstn_all2. lia.
Qed.

Lemma slice_to_nil {A} (stop : Z) : slice_to (@nil A) stop = [].
Proof.
  unfold slice_to. destruct (stop <? 0); apply firstn_nil.
Qed.

Lemma slice_to_zero {A} (l : list A) : slice_to l 0 = [].
Proof. reflexivity. Qed.

(** *** [startswith] and occurrences *)

Lemma startswith_iff (s sub : str) :
  startswith s sub = true <-> exists post, s = sub ++ post.
Proof.
  revert s. induction sub as [|a sub IH]; intros s; simpl.
  - split; [intros _; now exists s | reflexivity].
  - destruct s as [|b s].
    + split; [discriminate | intros [post H]; discriminate].
    + rewrite andb_true_iff, Z.eqb_eq, IH. split.
      * intros [-> [post ->]]. now exists post.
      * intros [post H]. injection H as -> ->. split; [reflexivity | now exists post].
Qed.

Lemma occurs_at_skipn (sub s : str) (i : nat) :
  occurs_at sub s i <->
  (i <= length s)%nat /\ startswith (skipn i s) sub = true.
Proof.
  rewrite startswith_iff. split.
  - intros (pre & post & -> & <-). split.
    + rewrite length_app. lia.
    + exists post. rewrite skipn_app, skipn_all, Nat.sub_diag. reflexivity.
  - intros [Hi [post Hpost]]. exists (firstn i s), post. split.
    + rewrite <- Hpost. symmetry. apply firstn_skipn.
    + apply firstn_length_le. exact Hi.
Qed.

Lemma occurs_at_bound (sub s : str) (i : nat) :
  occurs_at sub s i -> (i + length sub <= length s)%nat.
Proof.
  intros (pre & post & -> & <-). rewrite !length_app. lia.
Qed.

Lemma occurs_at_nth (sub s : str) (i k : nat) (c : char) :
  occurs_at sub s i -> nth_error sub k = Some c -> nth_error s (i + k) = Some c.
Proof.
  intros (pre & post & -> & <-) Hk.
  rewrite nth_error_app2 by lia.
  replace (length pre + k - length pre)%nat with k by lia.
  rewrite nth_error_app1; [exact Hk |].
  apply nth_error_Some. congruence.
Qed.

Lemma occurs_at_firstn (sub s : str) (i : nat) (c : char) :
  occurs_at sub s i -> nth_error sub 0 = Some c ->
  exists pre rest, s = pre ++ c :: rest /\ length pre = i /\ firstn (i + 1) s = pre ++ [c].
Proof.
  intros (pre & post & -> & <-) Hc.
  destruct sub as [|c' sub]; [discriminate |]. injection Hc as ->.
  exists pre, (sub ++ post). repeat split.
  rewrite firstn_app, firstn_all2 by lia.
  replace (length pre + 1 - length pre)%nat with 1%nat by lia.
  reflexivity.
Qed.

(** *** [rfind] *)

Lemma rfind_from_eq (s sub : str) (i : nat) :
  rfind_from s sub i =
  if startswith (skipn i s) sub then Z.of_nat i
  else match i with
       | O => -1
       | S j => rfind_from s sub j
       end.
Proof. destruct i; reflexivity. Qed.

Lemma rfind_from_correct (s sub : str) (i : nat) :
  (i <= length s)%nat ->
  (exists k, (k <= i)%nat /\ rfind_from s sub i = Z.of_nat k /\
             occurs_at sub s k /\
             forall j, (j <= i)%nat -> occurs_at sub s j -> (j <= k)%nat)
  \/ (rfind_from s sub i = -1 /\ forall j, (j <= i)%nat -> ~ occurs_at sub s j).
Proof.
  induction i as [|i IH]; intros Hi; rewrite rfind_from_eq.
  - destruct (startswith (skipn 0 s) sub) eqn:Hs.
    + left. exists 0%nat. repeat split; try lia.
      apply occurs_at_skipn. split; [lia | exact Hs].
    + right. split; [reflexivity |]. intros j Hj Hocc.
      assert (j = 0)%nat as -> by lia.
      apply occurs_at_skipn in Hocc. destruct Hocc as [_ Hocc]. congruence.
  - destruct (startswith (skipn (S i) s) sub) eqn:Hs.
    + left. exists (S i). repeat split; try lia.
      apply occurs_at_skipn. split; [lia | exact Hs].
    + destruct IH as [(k & Hk & Hr & Hocc & Hmax) | [Hr Hnone]]; [lia | |].
      * left. exists k. repeat split; try lia; try assumption.
        intros j Hj Hoccj.
        destruct (Nat.eq_dec j (S i)) as [-> | Hne].
        -- apply occurs_at_skipn in Hoccj. destruct Hoccj as [_ Hoccj]. congruence.
        -- apply Hmax; [lia | exact Hoccj].
      * right. split; [exact Hr |]. intros j Hj Hoccj.
        destruct (Nat.eq_dec j (S i)) as [-> | Hne].
        -- apply occurs_at_skipn in Hoccj. destruct Hoccj as [_ Hoccj]. congruence.
        -- apply (Hnone j); [lia | exact Hoccj].
Qed.

Lemma rfind_correct (s sub : str) : rfind_spec s sub (rfind s sub).
Proof.
  unfold rfind.
  destruct (rfind_from_correct s sub (Nat.le_refl (length s)))
    as [(k & Hk & -> & Hocc & Hmax) | [-> Hnone]].
  - apply rfind_found; [exact Hocc |].
    intros j Hj. apply Hmax; [| exact Hj].
    apply occurs_at_bound in Hj. lia.
  - apply rfind_absent. intros j Hj.
    apply (Hnone j); [| exact Hj].
    apply occurs_at_bound in Hj. lia.
Qed.

End PyFacts.

(** *** [rstrip] *)

Module StripFacts.
Import Py.

Lemma drop_while_length {A} (p : A -> bool) (l : list A) :
  (length (drop_while p l) <= length l)%nat.
Proof.
  induction l as [|a l IH]; simpl; [lia |].
  destruct (p a); simpl; lia.
Qed.

Lemma drop_while_keeps {A} (p : A -> bool) (a b : list A) (c : A) :
  p c = false -> exists a', drop_while p (a ++ c :: b) = a' ++ c :: b.
Proof.
  intros Hc. induction a as [|x a IH]; simpl.
  - rewrite Hc. now exists [].
  - destruct (p x).
    + exact IH.
    + now exists (x :: a).
Qed.

Lemma rstrip_nil : rstrip [] = [].
Proof. reflexivity. Qed.

Lemma rstrip_length (s : str) : (length (rstrip s) <= length s)%nat.
Proof.
  unfold rstrip. rewrite length_rev.
  etransitivity; [apply drop_while_length |]. rewrite length_rev. lia.
Qed.

Lemma rstrip_snoc_nonspace (s : str) (c : char) :
  isspace c = false -> rstrip (s ++ [c]) = s ++ [c].
Proof.
  intros Hc. unfold rstrip. rewrite rev_app_distr. simpl. rewrite Hc.
  simpl. rewrite rev_involutive. reflexivity.
Qed.

Lemma rstrip_snoc_space (s : str) (c : char) :
  isspace c = true -> rstrip (s ++ [c]) = rstrip s.
Proof.
  intros Hc. unfold rstrip. rewrite rev_app_distr. simpl. rewrite Hc. reflexivity.
Qed.

Lemma rstrip_keeps (pre rest : str) (c : char) :
  isspace c = false ->
  (length pre + 1 <= length (rstrip (pre ++ c :: rest)))%nat.
Proof.
  intros Hc. unfold rstrip.
  rewrite rev_app_distr. simpl. rewrite <- app_assoc. simpl.
  destruct (drop_while_keeps isspace (rev rest) (rev pre) c Hc) as [a' ->].
  rewrite length_rev, length_app. simpl. rewrite length_rev. lia.
Qed.

Lemma rstrip_fixed_iff (s : str) :
  rstrip s = s <-> no_trailing_space s.
Proof.
  split.
  - intros Hfix p c ->.
    destruct (isspace c) eqn:Hc; [| reflexivity].
    rewrite rstrip_snoc_space in Hfix by exact Hc.
    pose proof (rstrip_length p) as Hlen. rewrite Hfix in Hlen.
    rewrite length_app in Hlen. simpl in Hlen. lia.
  - intros Hns. destruct s as [|a s] using rev_ind; [reflexivity |].
    apply rstrip_snoc_nonspace. exact (Hns s a eq_refl).
Qed.

Lemma rstrip_no_trailing_space (s : str) : no_trailing_space (rstrip s).
Proof.
  induction s as [|a s IH] using rev_ind.
  - intros p c H. destruct p; discriminate.
  - destruct (isspace a) eqn:Ha.
    + rewrite rstrip_snoc_space by exact Ha. exact IH.
    + rewrite rstrip_snoc_nonspace by exact Ha.
      intros p c H. apply app_inj_tail in H. destruct H as [_ <-]. exact Ha.
Qed.

End StripFacts.

(** *** The loop over the sentence endings *)

Module LoopFacts.
Import Py PyFacts.

Lemma last_end_step (s : str) (seen : list str) (e : str) (acc : Z) :
  last_end_spec s seen acc ->
  last_end_spec s (seen ++ [e]) (Z.max acc (rfind s e)).
Proof.
  intros Hacc.
  destruct (rfind_correct s e) as [k' Hocc' Hmax' | Hnone'];
    destruct Hacc as [k e0 Hin Hocc Hmax | Hnone].
  - destruct (Nat.le_gt_cases k k') as [Hle | Hgt].
    + rewrite Z.max_r by lia.
      apply last_end_found with (e := e); [apply in_or_app; right; now left | exact Hocc' |].
      intros e' j Hin' Hj. apply in_app_or in Hin'. destruct Hin' as [Hin' | [<- | []]].
      * specialize (Hmax e' j Hin' Hj). lia.
      * apply Hmax'. exact Hj.
    + rewrite Z.max_l by lia.
      apply last_end_found with (e := e0); [apply in_or_app; now left | exact Hocc |].
      intros e' j Hin' Hj. apply in_app_or in Hin'. destruct Hin' as [Hin' | [<- | []]].
      * exact (Hmax e' j Hin' Hj).
      * specialize (Hmax' j Hj). lia.
  - rewrite Z.max_r by lia.
    apply last_end_found with (e := e); [apply in_or_app; right; now left | exact Hocc' |].
    intros e' j Hin' Hj. apply in_app_or in Hin'. destruct Hin' as [Hin' | [<- | []]].
    + exfalso. exact (Hnone e' j Hin' Hj).
    + apply Hmax'. exact Hj.
  - rewrite Z.max_l by lia.
    apply last_end_found with (e := e0); [apply in_or_app; now left | exact Hocc |].
    intros e' j Hin' Hj. apply in_app_or in Hin'. destruct Hin' as [Hin' | [<- | []]].
    + exact (Hmax e' j Hin' Hj).
    + exfalso. exact (Hnone' j Hj).
  - rewrite Z.max_l by lia.
    apply last_end_absent.
    intros e' j Hin' Hj. apply in_app_or in Hin'. destruct Hin' as [Hin' | [<- | []]].
    + exact (Hnone e' j Hin' Hj).
    + exact (Hnone' j Hj).
Qed.

Lemma last_end_fold (s : str) (rest seen : list str) (acc : Z) :
  last_end_spec s seen acc ->
  last_end_spec s (seen ++ rest)
    (fold_left (fun last_end ending => Z.max last_end (rfind s ending)) rest acc).
Proof.
  revert seen acc. induction rest as [|e rest IH]; intros seen acc Hacc; simpl.
  - rewrite app_nil_r. exact Hacc.
  - replace (seen ++ e :: rest) with ((seen ++ [e]) ++ rest)
      by (rewrite <- app_assoc; reflexivity).
    apply IH. apply last_end_step. exact Hacc.
Qed.

Lemma find_last_end_correct (s : str) (endings : list str) :
  last_end_spec s endings (find_last_end s endings).
Proof.
  unfold find_last_end.
  apply (@last_end_fold s endings [] (-1)).
  apply last_end_absent. intros e j [].
Qed.

End LoopFacts.

(** *** The sentence-boundary markers *)

Module MarkerFacts.
Import Py PyFacts StripFacts LoopFacts.

(** Every marker is a terminator character, alone or followed by a space;
    no terminator is whitespace. *)
Lemma marker_shape (mk : str) :
  In mk sentence_endings ->
  exists c, In c terminators /\ isspace c = false /\ c <> 0x20 /\
            (mk = [c] \/ mk = [c; 0x20]).
Proof.
  intros H. simpl in H.
  repeat (destruct H as [<- | H];
          [ match goal with
            | |- exists c, _ /\ _ /\ _ /\ (?a :: _ = _ \/ _) => exists a
            end;
            split; [simpl; tauto |];
            split; [reflexivity |];
            split; [discriminate |];
            first [left; reflexivity | right; reflexivity]
          | ]).
  contradiction.
Qed.

Lemma terminator_not_space (c : char) :
  In c terminators -> isspace c = false.
Proof.
  intros H. simpl in H.
  repeat (destruct H as [<- | H]; [reflexivity |]). contradiction.
Qed.

(** Two markers with the same first character are the same marker. *)
Lemma marker_first_inj (mk mk' : str) :
  In mk sentence_endings -> In mk' sentence_endings ->
  nth_error mk 0 = nth_error mk' 0 -> mk = mk'.
Proof.
  intros H H'. simpl in H, H'.
  repeat (destruct H as [<- | H]; [| ]); try contradiction;
    repeat (destruct H' as [<- | H']; [| ]); try contradiction;
    simpl; intros Heq; first [reflexivity | discriminate].
Qed.

(** Among marker occurrences, a later start is a later end: the greatest
    starting index, which the loop computes, is the greatest ending index. *)
Lemma marker_start_end (s mk mk' : str) (i i' : nat) :
  marker_at s mk i -> marker_at s mk' i' ->
  (i' <= i)%nat -> (i' + length mk' <= i + length mk)%nat.
Proof.
  intros [Hin Hocc] [Hin' Hocc'] Hle.
  destruct (marker_shape Hin) as (c & _ & _ & Hc & Hmk).
  destruct (marker_shape Hin') as (c' & _ & _ & Hc' & Hmk').
  destruct (Nat.eq_dec i' i) as [-> | Hne].
  - assert (mk = mk') as ->; [| lia].
    apply marker_first_inj; try assumption.
    assert (nth_error s (i + 0) = Some c) as H1
      by (apply (occurs_at_nth 0 Hocc); destruct Hmk as [-> | ->]; reflexivity).
    assert (nth_error s (i + 0) = Some c') as H2
      by (apply (occurs_at_nth 0 Hocc'); destruct Hmk' as [-> | ->]; reflexivity).
    destruct Hmk as [-> | ->], Hmk' as [-> | ->]; simpl; congruence.
  - destruct Hmk' as [-> | ->].
    + destruct Hmk as [-> | ->]; simpl; lia.
    + destruct (Nat.eq_dec i (i' + 1)) as [-> | Hne'].
      * exfalso.
        assert (nth_error s (i' + 1) = Some 0x20) as H1
          by (apply (occurs_at_nth 1 Hocc'); reflexivity).
        assert (nth_error s (i' + 1 + 0) = Some c) as H2
          by (apply (occurs_at_nth 0 Hocc); destruct Hmk as [-> | ->]; reflexivity).
        rewrite Nat.add_0_r in H2. congruence.
      * destruct Hmk as [-> | ->]; simpl; lia.
Qed.

(** The loop finds the right-most marker, or none. *)
Lemma find_last_end_cases (s : str) :
  (exists mk i, find_last_end s sentence_endings = Z.of_nat i /\
                rightmost_marker s mk i)
  \/ (find_last_end s sentence_endings = -1 /\ ~ has_marker s).
Proof.
  destruct (find_last_end_correct s sentence_endings) as [k e Hin Hocc Hmax | Hnone].
  - left. exists e, k. split; [reflexivity |]. split; [split; assumption |].
    intros mk' i' Hm'. apply marker_start_end with (s := s).
    + split; assumption.
    + exact Hm'.
    + destruct Hm' as [Hin' Hocc']. exact (Hmax mk' i' Hin' Hocc').
  - right. split; [reflexivity |].
    intros (mk & i & Hin & Hocc). exact (Hnone mk i Hin Hocc).
Qed.

(** The text up to and including the terminator of a marker occurrence. *)
Lemma snap_at_marker (s mk : str) (i : nat) :
  marker_at s mk i ->
  exists c pre rest,
    In c terminators /\ nth_error mk 0 = Some c /\
    s = pre ++ c :: rest /\ length pre = i /\
    firstn (i + 1) s = pre ++ [c] /\
    rstrip (firstn (i + length mk) s) = pre ++ [c].
Proof.
  intros [Hin Hocc].
  destruct (marker_shape Hin) as (c & Hterm & Hsp & _ & Hmk).
  assert (nth_error mk 0 = Some c) as Hhd by (destruct Hmk as [-> | ->]; reflexivity).
  destruct (occurs_at_firstn Hocc Hhd) as (pre & rest & Hs & Hlen & Hfst).
  exists c, pre, rest. repeat split; try assumption.
  destruct Hmk as [-> | ->].
  - simpl length. rewrite Hfst. apply rstrip_snoc_nonspace. exact Hsp.
  - destruct Hocc as (pre' & post & Hs' & Hlen').
    assert (firstn i s = pre') as Hp'.
    { rewrite Hs', <- Hlen', <- (Nat.add_0_r (length pre')), firstn_app_2.
      simpl. apply app_nil_r. }
    assert (firstn i s = pre) as Hp.
    { rewrite Hs, <- Hlen, <- (Nat.add_0_r (length pre)), firstn_app_2.
      simpl. apply app_nil_r. }
    assert (pre' = pre) as -> by congruence.
    simpl length. rewrite Hs', <- Hlen', firstn_app_2. simpl firstn.
    change (pre ++ [c; 0x20]) with (pre ++ [c] ++ [0x20]).
    rewrite app_assoc.
    rewrite rstrip_snoc_space by reflexivity.
    apply rstrip_snoc_nonspace. exact Hsp.
Qed.

(** [finish] in the two cases of the search. *)
Lemma finish_false (s : str) : finish s false = rstrip s.
Proof. reflexivity. Qed.

Lemma finish_found (s : str) (i : nat) :
  find_last_end s sentence_endings = Z.of_nat i ->
  finish s true = rstrip (firstn (i + 1) s).
Proof.
  intros H. unfold finish. simpl negb. cbv zeta. rewrite H.
  destruct (Z.eqb_spec (Z.of_nat i) (-1)) as [Heq | _]; [lia |].
  simpl negb. cbv iota. rewrite slice_to_nonneg by lia.
  do 2 f_equal. lia.
Qed.

Lemma finish_absent (s : str) :
  find_last_end s sentence_endings = -1 ->
  finish s true = rstrip s.
Proof.
  intros H. unfold finish. simpl negb. cbv zeta. rewrite H. reflexivity.
Qed.

(** With a marker in the text, the result is the text up to and including
    the terminator of the right-most one; the strip changes nothing there. *)
Lemma finish_marker (s : str) :
  has_marker s ->
  exists mk i c pre rest,
    rightmost_marker s mk i /\ In c terminators /\ nth_error mk 0 = Some c /\
    s = pre ++ c :: rest /\ length pre = i /\
    firstn (i + 1) s = pre ++ [c] /\
    rstrip (firstn (i + length mk) s) = pre ++ [c] /\
    finish s true = pre ++ [c].
Proof.
  intros Hhas.
  destruct (find_last_end_cases s) as [(mk & i & Hfind & Hright) | [_ Hnone]];
    [| contradiction].
  destruct (snap_at_marker (proj1 Hright))
    as (c & pre & rest & Hterm & Hhd & Hs & Hlen & Hfst & Hstrip).
  exists mk, i, c, pre, rest. repeat split; try assumption; try apply Hright.
  rewrite (@finish_found s i Hfind), Hfst.
  apply rstrip_snoc_nonspace, terminator_not_space, Hterm.
Qed.

Lemma finish_no_marker (s : str) :
  ~ has_marker s -> finish s true = rstrip s.
Proof.
  intros Hnone.
  destruct (find_last_end_cases s) as [(mk & i & _ & Hright) | [Hfind _]].
  - exfalso. apply Hnone. exists mk, i. apply Hright.
  - apply finish_absent. exact Hfind.
Qed.

(** [finish] is the stripping rule of the specification. *)
Lemma finish_stripping_rule (s : str) (b : bool) :
  stripping_rule b s (finish s b).
Proof.
  destruct b; simpl; [| reflexivity].
  destruct (find_last_end_cases s) as [(mk & i & Hfind & Hright) | [Hfind Hnone]].
  - exists (firstn (i + 1) s). split.
    + apply snapped_marker with (mk := mk). exact Hright.
    + apply finish_found. exact Hfind.
  - exists s. split.
    + apply snapped_none. exact Hnone.
    + apply finish_absent. exact Hfind.
Qed.

(** The sentence-preserving result is never longer than the right-strip. *)
Lemma finish_length (s : str) :
  (length (finish s true) <= length (finish s false))%nat.
Proof.
  rewrite finish_false.
  destruct (find_last_end_cases s) as [(mk & i & Hfind & Hright) | [Hfind Hnone]].
  - destruct (finish_marker (ex_intro _ mk (ex_intro _ i (proj1 Hright))))
      as (mk0 & i0 & c & pre & rest & _ & Hterm & _ & Hs & _ & _ & _ & ->).
    rewrite Hs, length_app. simpl length.
    apply rstrip_keeps, terminator_not_space, Hterm.
  - rewrite (@finish_absent s Hfind). lia.
Qed.

End MarkerFacts.

(** *** The stripping rule determines its result *)

Module RuleFacts.
Import Py PyFacts StripFacts LoopFacts MarkerFacts.

Lemma marker_end_start (s mk mk' : str) (i i' : nat) :
  marker_at s mk i -> marker_at s mk' i' ->
  (i + length mk = i' + length mk')%nat -> (i <= i')%nat.
Proof.
  intros [Hin Hocc] [Hin' Hocc'] Hend.
  destruct (marker_shape Hin) as (c & _ & _ & Hc & Hmk).
  destruct (marker_shape Hin') as (c' & _ & _ & _ & Hmk').
  destruct (Nat.le_gt_cases i i') as [Hle | Hgt]; [exact Hle | exfalso].
  assert (nth_error s (i + 0) = Some c) as H0
    by (apply (occurs_at_nth 0 Hocc); destruct Hmk as [-> | ->]; reflexivity).
  destruct Hmk as [-> | ->], Hmk' as [-> | ->]; simpl in Hend; try lia.
  assert (nth_error s (i' + 1) = Some 0x20) as H1
    by (apply (occurs_at_nth 1 Hocc'); reflexivity).
  replace (i + 0)%nat with (i' + 1)%nat in H0 by lia.
  congruence.
Qed.

Lemma rightmost_marker_unique (s mk mk' : str) (i i' : nat) :
  rightmost_marker s mk i -> rightmost_marker s mk' i' -> i = i'.
Proof.
  intros [Hm Hmax] [Hm' Hmax'].
  pose proof (Hmax _ _ Hm') as H1. pose proof (Hmax' _ _ Hm) as H2.
  assert (i + length mk = i' + length mk')%nat as Hend by lia.
  pose proof (marker_end_start Hm Hm' Hend).
  pose proof (marker_end_start Hm' Hm (eq_sym Hend)).
  lia.
Qed.

Lemma snapped_functional (s r1 r2 : str) :
  snapped s r1 -> snapped s r2 -> r1 = r2.
Proof.
  intros [mk1 i1 H1 | H1] [mk2 i2 H2 | H2].
  - rewrite (rightmost_marker_unique H1 H2). reflexivity.
  - exfalso. apply H2. exists mk1, i1. apply H1.
  - exfalso. apply H1. exists mk2, i2. apply H2.
  - reflexivity.
Qed.

Lemma stripping_rule_functional (b : bool) (s out1 out2 : str) :
  stripping_rule b s out1 -> stripping_rule b s out2 -> out1 = out2.
Proof.
  destruct b; simpl.
  - intros (r1 & Hs1 & ->) (r2 & Hs2 & ->).
    rewrite (snapped_functional Hs1 Hs2). reflexivity.
  - congruence.
Qed.

End RuleFacts.

(** ** Running the method *)

Example ex_two_sentences_exact :
  decode_tokens char_provider
    (of_string "Hello world. This is a test. Keep going") (Some 39) true
  = Ok (of_string "Hello world. This is a test.").
Proof. vm_compute. reflexivity. Qed.

Example ex_full_width :
  decode_tokens char_provider [0x4F60; 0x597D; 0x3002; 0x20; 0x61; 0x62] (Some 5) true
  = Ok [0x4F60; 0x597D; 0x3002].
Proof. vm_compute. reflexivity. Qed.

Example ex_invalid_token :
  decode_tokens char_provider [0x61; -1; 0x62] (Some 2) true = Raise (InvalidToken (-1)).
Proof. vm_compute. reflexivity. Qed.

Example ex_negative_limit :
  decode_tokens char_provider (of_string "abc. def") (Some (-2)) false
  = Ok (of_string "abc. d").
Proof. vm_compute. reflexivity. Qed.

(** * The truncation routine *)

Section Truncation.
Import Py PyFacts StripFacts LoopFacts MarkerFacts RuleFacts.

Context {E Client Kwargs : Type}.
Implicit Types (self : OpenAI E Client Kwargs) (T : list token) (m : Z) (b : bool).

(** With a limit, the method is [finish] after decoding the slice. *)
Lemma decode_tokens_limit self T m b :
  decode_tokens self T (Some m) b =
  rmap (fun text => finish text b) (decode (tokenizer self) (slice_to T m)).
Proof.
  unfold decode_tokens, rmap, bind, finish.
  destruct (decode (tokenizer self) (slice_to T m)) as [text | e]; [| reflexivity].
  destruct (negb b); [reflexivity |]. cbv zeta.
  destruct (negb (find_last_end text sentence_endings =? -1)); reflexivity.
Qed.

Lemma decode_tokens_limit_ok self T m b (text : str) :
  decode (tokenizer self) (slice_to T m) = Ok text ->
  decode_tokens self T (Some m) b = Ok (finish text b).
Proof. intros H. rewrite decode_tokens_limit, H. reflexivity. Qed.

Lemma decode_tokens_limit_raise self T m b (e : E) :
  decode (tokenizer self) (slice_to T m) = Raise e ->
  decode_tokens self T (Some m) b = Raise e.
Proof. intros H. rewrite decode_tokens_limit, H. reflexivity. Qed.

(** C1. With a limit [m] and [preserve_sentence] true, the text decoded from
    the first [m] tokens is searched for the marker occurrence with the
    greatest ending index.  If a marker occurs, the result is the text up to
    and including its terminator, right-stripped (which is also the text up to
    the end of the marker, right-stripped); if none occurs, the result is the
    whole truncated text right-stripped, as with [preserve_sentence] false. *)
Theorem decode_tokens_preserve_sentence self T m (text : str) :
  0 <= m ->
  decode (tokenizer self) (firstn (Z.to_nat m) T) = Ok text ->
  (has_marker text ->
   exists mk i,
     rightmost_marker text mk i /\
     decode_tokens self T (Some m) true = Ok (rstrip (firstn (i + 1) text)) /\
     rstrip (firstn (i + 1) text) = rstrip (firstn (i + length mk) text))
  /\
  (~ has_marker text ->
   decode_tokens self T (Some m) true = Ok (rstrip text) /\
   decode_tokens self T (Some m) true = decode_tokens self T (Some m) false).
Proof.
  intros Hm Hdec. rewrite <- slice_to_nonneg in Hdec by exact Hm.
  rewrite !(decode_tokens_limit_ok _ _ _ _ Hdec). split.
  - intros Hhas.
    destruct (finish_marker Hhas)
      as (mk & i & c & pre & rest & Hright & Hterm & _ & _ & _ & Hfst & Hmk & Hfin).
    exists mk, i. split; [exact Hright |].
    rewrite Hmk, Hfin, Hfst.
    rewrite rstrip_snoc_nonspace by (apply terminator_not_space, Hterm).
    split; reflexivity.
  - intros Hnone. rewrite (finish_no_marker Hnone), finish_false.
    split; reflexivity.
Qed.

(** C2. Without a limit the method returns what the tokenizer decodes from
    the whole token list, untouched, whatever the flag. *)
Theorem decode_tokens_no_limit self T b :
  decode_tokens self T None b = decode (tokenizer self) T.
Proof. reflexivity. Qed.

(** C3, as amended. With a limit [m] greater than the number of tokens, the
    method raises what the call without a limit raises, and where that call
    returns a string the method returns it passed through the stripping rule
    for the flag; the two strings are the same when the text has no trailing
    whitespace and either the flag is false or no marker occurs in it. *)
Theorem decode_tokens_large_limit self T m b :
  Z.of_nat (length T) < m ->
  (forall e, decode_tokens self T None b = Raise e ->
             decode_tokens self T (Some m) b = Raise e)
  /\
  (forall text, decode_tokens self T None b = Ok text ->
     exists out,
       decode_tokens self T (Some m) b = Ok out /\
       stripping_rule b text out /\
       (no_trailing_space text -> b = false \/ ~ has_marker text -> out = text)).
Proof.
  intros Hm. rewrite decode_tokens_no_limit, decode_tokens_limit.
  rewrite slice_to_all by lia. split.
  - intros e ->. reflexivity.
  - intros text ->. exists (finish text b). split; [reflexivity |].
    split; [apply finish_stripping_rule |].
    intros Hns Hb. apply rstrip_fixed_iff in Hns.
    destruct Hb as [-> | Hnone].
    + rewrite finish_false. exact Hns.
    + destruct b; [rewrite (finish_no_marker Hnone) | rewrite finish_false]; exact Hns.
Qed.

(** C4. With a limit [m] of at least the number of tokens, the result is the
    decoding of the whole token list passed through the stripping rule for
    the flag. *)
Theorem decode_tokens_limit_covers self T m b (text : str) :
  Z.of_nat (length T) <= m ->
  decode (tokenizer self) T = Ok text ->
  exists out,
    decode_tokens self T (Some m) b = Ok out /\ stripping_rule b text out.
Proof.
  intros Hm Hdec. exists (finish text b). split.
  - apply decode_tokens_limit_ok. rewrite slice_to_all by exact Hm. exact Hdec.
  - apply finish_stripping_rule.
Qed.

(** C5. With a limit [m] and [preserve_sentence] false, the method decodes
    the first [m] tokens, which are all the tokens when there are at most
    [m], and returns the decoded text right-stripped; the slice itself never
    raises. *)
Theorem decode_tokens_truncate self T m :
  0 <= m ->
  decode_tokens self T (Some m) false =
    rmap rstrip (decode (tokenizer self) (firstn (Z.to_nat m) T))
  /\
  (Z.of_nat (length T) <= m ->
   decode_tokens self T (Some m) false = rmap rstrip (decode (tokenizer self) T)).
Proof.
  intros Hm. rewrite decode_tokens_limit. split.
  - rewrite slice_to_nonneg by exact Hm. reflexivity.
  - intros Hlen. rewrite slice_to_all by exact Hlen. reflexivity.
Qed.

(** C6. On the same token list and limit, the result with [preserve_sentence]
    true is never longer than the result with it false; the two calls raise
    together. *)
Theorem preserve_sentence_no_longer self T (context_length : option Z) :
  no_longer (decode_tokens self T context_length true)
            (decode_tokens self T context_length false).
Proof.
  destruct context_length as [m |].
  - rewrite !decode_tokens_limit.
    destruct (decode (tokenizer self) (slice_to T m)) as [text | e]; simpl.
    + apply finish_length.
    + reflexivity.
  - rewrite !decode_tokens_no_limit.
    destruct (decode (tokenizer self) T) as [text | e]; simpl; [lia | reflexivity].
Qed.

(** C7. On an empty token list, or with limit 0, the method returns whenever
    the tokenizer decodes the empty token list, and it returns the empty
    string when the tokenizer decodes the empty list to the empty string. *)
Theorem decode_tokens_empty self (text : str) T (context_length : option Z) b :
  decode (tokenizer self) [] = Ok text ->
  T = [] \/ context_length = Some 0 ->
  (exists out, decode_tokens self T context_length b = Ok out)
  /\ (text = [] -> decode_tokens self T context_length b = Ok []).
Proof.
  intros Hdec Hcase.
  assert (decode_tokens self T context_length b = Ok text
          \/ decode_tokens self T context_length b = Ok (finish text b)) as Hres.
  { destruct Hcase as [-> | ->].
    - destruct context_length as [m |].
      + right. apply decode_tokens_limit_ok. rewrite slice_to_nil. exact Hdec.
      + left. exact Hdec.
    - right. apply decode_tokens_limit_ok. exact Hdec. }
  split.
  - destruct Hres as [-> | ->]; eexists; reflexivity.
  - intros ->. destruct Hres as [-> | ->]; [reflexivity |].
    destruct b; reflexivity.
Qed.

(** C8. The method raises nothing of its own and catches nothing: it raises
    [e] exactly when the tokenizer raises [e] on the list it is given; and
    when the tokenizer's [decode] is total the method returns a string on
    every token list, every limit or none, and either flag. *)
Theorem decode_tokens_total self :
  (forall T (context_length : option Z) b e,
     decode_tokens self T context_length b = Raise e <->
     decode (tokenizer self)
       (match context_length with Some m => slice_to T m | None => T end) = Raise e)
  /\
  ((forall l, exists s, decode (tokenizer self) l = Ok s) ->
   forall T (context_length : option Z) b,
     exists s, decode_tokens self T context_length b = Ok s).
Proof.
  split.
  - intros T [m |] b e; [| reflexivity].
    rewrite decode_tokens_limit.
    destruct (decode (tokenizer self) (slice_to T m)); simpl; split; congruence.
  - intros Htotal T [m |] b.
    + destruct (Htotal (slice_to T m)) as [s Hs].
      exists (finish s b). apply decode_tokens_limit_ok. exact Hs.
    + apply Htotal.
Qed.

(** C10. With a limit and [preserve_sentence] true, when a marker occurs in
    the truncated decoded text the result is not empty and ends with the
    terminator character of the right-most marker, one of the six; the space
    of a two-character marker is left out. *)
Theorem preserved_result_ends_with_terminator self T m (text : str) :
  decode (tokenizer self) (slice_to T m) = Ok text ->
  has_marker text ->
  exists mk i pre c rest,
    rightmost_marker text mk i /\
    nth_error mk 0 = Some c /\
    text = pre ++ c :: rest /\ length pre = i /\
    decode_tokens self T (Some m) true = Ok (pre ++ [c]) /\
    In c terminators /\ c <> 0x20.
Proof.
  intros Hdec Hhas.
  destruct (finish_marker Hhas)
    as (mk & i & c & pre & rest & Hright & Hterm & Hhd & Hs & Hlen & _ & _ & Hfin).
  exists mk, i, pre, c, rest. repeat split; try assumption; try apply Hright.
  - rewrite (decode_tokens_limit_ok _ _ _ _ Hdec), Hfin. reflexivity.
  - intros ->. pose proof (terminator_not_space Hterm). discriminate.
Qed.

End Truncation.

(** * The method and the objects it reaches *)

Section Purity.
Import Py PyFacts.

Context {E Client Kwargs : Type}.
Variable decode_call : Tokenizer E -> ref -> M E Client Kwargs str.

Implicit Types (w : World E Client Kwargs) (tokens : ref) (b : bool).

Lemma deref_with_slice_new w tokens n :
  deref (with_slice w tokens n) (length (w_lists w)) = slice_to (deref w tokens) n.
Proof.
  unfold deref at 1, with_slice. simpl. rewrite app_nth2, Nat.sub_diag by lia.
  reflexivity.
Qed.

Lemma preserves_refl w : preserves w w.
Proof. repeat split; lia. Qed.

Lemma preserves_with_slice w tokens n : preserves w (with_slice w tokens n).
Proof.
  split; [reflexivity |]. split.
  - unfold with_slice. simpl. rewrite length_app. lia.
  - intros r Hr. unfold deref, with_slice. simpl. apply app_nth1. exact Hr.
Qed.

Lemma run_no_limit w tokens b :
  decode_reads_only decode_call ->
  decode_tokens_m decode_call tokens None b w
  = (decode_tokens (w_self w) (deref w tokens) None b, w).
Proof.
  intros Hpure. unfold decode_tokens_m, bindM, get_tokenizer.
  rewrite Hpure. reflexivity.
Qed.

Lemma run_limit w tokens (n : Z) b :
  decode_reads_only decode_call ->
  decode_tokens_m decode_call tokens (Some n) b w
  = (decode_tokens (w_self w) (deref w tokens) (Some n) b, with_slice w tokens n).
Proof.
  intros Hpure. unfold decode_tokens_m, bindM, get_tokenizer, slice_list.
  fold (with_slice w tokens n). rewrite Hpure, deref_with_slice_new.
  unfold decode_tokens, bind. change (w_self (with_slice w tokens n)) with (w_self w).
  destruct (decode (tokenizer (w_self w)) (slice_to (deref w tokens) n)) as [text | e];
    [| reflexivity].
  unfold ret. destruct (negb b); [reflexivity |]. cbv zeta.
  destruct (negb (find_last_end text sentence_endings =? -1)); reflexivity.
Qed.

(** With a limit the tokenizer is handed the new slice, so even a [decode]
    that changes the list it is given leaves the caller's list alone. *)
Lemma limit_protects_arguments w tokens (n : Z) b :
  decode_touches_argument_only decode_call ->
  preserves w (snd (decode_tokens_m decode_call tokens (Some n) b w)).
Proof.
  intros Htouch. unfold decode_tokens_m, bindM, get_tokenizer, slice_list.
  fold (with_slice w tokens n).
  destruct (Htouch (tokenizer (w_self w)) (length (w_lists w)) (with_slice w tokens n))
    as (Hself & Hlen & Hold).
  destruct (preserves_with_slice w tokens n) as (Hself0 & Hlen0 & Hold0).
  assert (preserves w (snd (decode_call (tokenizer (w_self w)) (length (w_lists w))
                              (with_slice w tokens n)))) as Hpres.
  { split; [congruence |]. split; [lia |].
    intros r Hr. rewrite Hold by lia. apply Hold0, Hr. }
  destruct (decode_call (tokenizer (w_self w)) (length (w_lists w)) (with_slice w tokens n))
    as [[text | e] w'']; simpl in *; [| exact Hpres].
  unfold ret. destruct (negb b); [exact Hpres |]. cbv zeta.
  destruct (negb (find_last_end text sentence_endings =? -1)); exact Hpres.
Qed.

(** C9. With a tokenizer whose [decode] has no side effect, the call
    returns what the function [decode_tokens] gives on the items of the list
    it was handed; two calls, in any two worlds, on lists with the same
    items, with the same limit and flag and tokenizers that decode alike,
    return the same; and after the call the provider object and every list
    object that existed before it, the caller's [tokens] among them, are as
    they were. *)
Theorem decode_tokens_pure w (w2 : World E Client Kwargs) tokens (tokens2 : ref)
    (context_length : option Z) b :
  decode_reads_only decode_call ->
  deref w2 tokens2 = deref w tokens ->
  (forall l, decode (tokenizer (w_self w2)) l = decode (tokenizer (w_self w)) l) ->
  fst (decode_tokens_m decode_call tokens context_length b w)
  = decode_tokens (w_self w) (deref w tokens) context_length b
  /\
  fst (decode_tokens_m decode_call tokens2 context_length b w2)
  = fst (decode_tokens_m decode_call tokens context_length b w)
  /\
  preserves w (snd (decode_tokens_m decode_call tokens context_length b w)).
Proof.
  intros Hpure Hitems Hsame. destruct context_length as [n |].
  - rewrite !run_limit by exact Hpure. simpl fst. simpl snd.
    split; [reflexivity |]. split; [| apply preserves_with_slice].
    rewrite Hitems. unfold decode_tokens. rewrite Hsame. reflexivity.
  - rewrite !run_no_limit by exact Hpure. simpl fst. simpl snd.
    split; [reflexivity |]. split; [| apply preserves_refl].
    rewrite Hitems. unfold decode_tokens. apply Hsame.
Qed.

End Purity.

(** Without a limit the caller's own list reaches the tokenizer: a [decode]
    that empties its argument empties the caller's list; with a limit it
    empties only the slice. *)
Example clearing_decode_no_limit :
  deref (snd (decode_tokens_m clearing_decode_call 0%nat None false
                {| w_self := char_provider; w_lists := [of_string "ab "] |})) 0%nat
  = [].
Proof. reflexivity. Qed.

Example clearing_decode_limit :
  deref (snd (decode_tokens_m clearing_decode_call 0%nat (Some 2) false
                {| w_self := char_provider; w_lists := [of_string "ab "] |})) 0%nat
  = of_string "ab ".
Proof. reflexivity. Qed.

(** * The properties on concrete runs *)

Lemma has_marker_example : has_marker (of_string "Hi. Yo! x").
Proof.
  exists [0x21; 0x20], 6%nat. split.
  - simpl. tauto.
  - exists (of_string "Hi. Yo"), (of_string "x"). split; reflexivity.
Qed.

Lemma decode_tokens_preserve_sentence_witness :
  0 <= 9
  /\ decode (tokenizer char_provider) (firstn (Z.to_nat 9) (of_string "Hi. Yo! x y"))
     = Ok (of_string "Hi. Yo! x")
  /\ exists mk i,
       rightmost_marker (of_string "Hi. Yo! x") mk i /\
       decode_tokens char_provider (of_string "Hi. Yo! x y") (Some 9) true
       = Ok (Py.rstrip (firstn (i + 1) (of_string "Hi. Yo! x"))) /\
       Py.rstrip (firstn (i + 1) (of_string "Hi. Yo! x"))
       = Py.rstrip (firstn (i + length mk) (of_string "Hi. Yo! x")).
Proof.
  split; [lia |]. split; [reflexivity |].
  apply (proj1 (@decode_tokens_preserve_sentence _ _ _ char_provider
                  (of_string "Hi. Yo! x y") 9 (of_string "Hi. Yo! x")
                  ltac:(lia) eq_refl)).
  exact has_marker_example.
Defined.

(** C3, as stated, fails: with a limit past the end the text is still
    right-stripped, and snapped to the last sentence when the flag is true,
    while without a limit it is returned as decoded. *)
Lemma decode_tokens_large_limit_differs :
  (Z.of_nat (length (of_string "a ")) < 3
   /\ decode_tokens char_provider (of_string "a ") (Some 3) false = Ok (of_string "a")
   /\ decode_tokens char_provider (of_string "a ") None false = Ok (of_string "a ")
   /\ decode_tokens char_provider (of_string "a ") (Some 3) false
      <> decode_tokens char_provider (of_string "a ") None false)
  /\
  (Z.of_nat (length (of_string "Hi. Yo")) < 7
   /\ decode_tokens char_provider (of_string "Hi. Yo") (Some 7) true = Ok (of_string "Hi.")
   /\ decode_tokens char_provider (of_string "Hi. Yo") None true = Ok (of_string "Hi. Yo")
   /\ decode_tokens char_provider (of_string "Hi. Yo") (Some 7) true
      <> decode_tokens char_provider (of_string "Hi. Yo") None true).
Proof.
  split; (split; [simpl; lia |]); (split; [reflexivity |]); (split; [reflexivity |]);
    vm_compute; discriminate.
Qed.

Lemma decode_tokens_large_limit_witness :
  Z.of_nat (length (of_string "a ")) < 3
  /\ exists out,
       decode_tokens char_provider (of_string "a ") (Some 3) false = Ok out /\
       stripping_rule false (of_string "a ") out /\
       (no_trailing_space (of_string "a ") ->
        false = false \/ ~ has_marker (of_string "a ") -> out = of_string "a ").
Proof.
  split; [simpl; lia |].
  apply (proj2 (@decode_tokens_large_limit _ _ _ char_provider (of_string "a ") 3 false
                  ltac:(simpl; lia))).
  reflexivity.
Defined.

Lemma decode_tokens_limit_covers_witness :
  Z.of_nat (length (of_string "Hi. Yo")) <= 6
  /\ decode (tokenizer char_provider) (of_string "Hi. Yo") = Ok (of_string "Hi. Yo")
  /\ exists out,
       decode_tokens char_provider (of_string "Hi. Yo") (Some 6) true = Ok out /\
       stripping_rule true (of_string "Hi. Yo") out.
Proof.
  split; [simpl; lia |]. split; [reflexivity |].
  apply (@decode_tokens_limit_covers _ _ _ char_provider (of_string "Hi. Yo") 6 true
           (of_string "Hi. Yo")); [simpl; lia | reflexivity].
Defined.

Lemma decode_tokens_truncate_witness :
  0 <= 4
  /\ decode_tokens char_provider (of_string "ab  cd") (Some 4) false
     = rmap Py.rstrip
         (decode (tokenizer char_provider) (firstn (Z.to_nat 4) (of_string "ab  cd"))).
Proof.
  split; [lia |].
  apply (proj1 (@decode_tokens_truncate _ _ _ char_provider (of_string "ab  cd") 4
                  ltac:(lia))).
Defined.

Lemma decode_tokens_empty_witness :
  decode (tokenizer char_provider) [] = Ok []
  /\ (of_string "Hi. " = [] \/ Some 0 = Some 0)
  /\ decode_tokens char_provider (of_string "Hi. ") (Some 0) true = Ok [].
Proof.
  split; [reflexivity |]. split; [right; reflexivity |].
  apply (proj2 (@decode_tokens_empty _ _ _ char_provider [] (of_string "Hi. ") (Some 0) true
                  eq_refl (or_intror eq_refl))).
  reflexivity.
Defined.

Lemma decode_tokens_total_witness :
  (forall l, exists s, decode (tokenizer lossy_provider) l = Ok s)
  /\ exists s, decode_tokens lossy_provider [0x48; -7; 0x2E; 0x20; 0x110000] (Some 4) true = Ok s.
Proof.
  assert (forall l, exists s, decode (tokenizer lossy_provider) l = Ok s) as Htotal
    by (intros l; eexists; reflexivity).
  split; [exact Htotal |].
  apply (proj2 (@decode_tokens_total _ _ _ lossy_provider) Htotal).
Defined.

Lemma decode_tokens_pure_witness :
  decode_reads_only (@pure_decode_call KeyError unit unit)
  /\ deref {| w_self := other_provider; w_lists := [[]; of_string "Hi. Yo"] |} 1%nat
     = deref {| w_self := char_provider; w_lists := [of_string "Hi. Yo"] |} 0%nat
  /\ (forall l, decode (tokenizer other_provider) l = decode (tokenizer char_provider) l)
  /\ fst (decode_tokens_m pure_decode_call 0%nat (Some 5) true
            {| w_self := char_provider; w_lists := [of_string "Hi. Yo"] |})
     = Ok (of_string "Hi.")
  /\ fst (decode_tokens_m pure_decode_call 1%nat (Some 5) true
            {| w_self := other_provider; w_lists := [[]; of_string "Hi. Yo"] |})
     = fst (decode_tokens_m pure_decode_call 0%nat (Some 5) true
              {| w_self := char_provider; w_lists := [of_string "Hi. Yo"] |})
  /\ preserves {| w_self := char_provider; w_lists := [of_string "Hi. Yo"] |}
       (snd (decode_tokens_m pure_decode_call 0%nat (Some 5) true
               {| w_self := char_provider; w_lists := [of_string "Hi. Yo"] |})).
Proof.
  assert (decode_reads_only (@pure_decode_call KeyError unit unit)) as Hpure
    by (intros tk r w; reflexivity).
  split; [exact Hpure |]. split; [reflexivity |]. split; [intros l; reflexivity |].
  exact (@decode_tokens_pure _ _ _ pure_decode_call
           {| w_self := char_provider; w_lists := [of_string "Hi. Yo"] |}
           {| w_self := other_provider; w_lists := [[]; of_string "Hi. Yo"] |}
           0%nat 1%nat (Some 5) true Hpure eq_refl (fun l => eq_refl)).
Defined.

Lemma preserved_result_ends_with_terminator_witness :
  decode (tokenizer char_provider) (Py.slice_to (of_string "Hi. Yo! x y") 9)
  = Ok (of_string "Hi. Yo! x")
  /\ has_marker (of_string "Hi. Yo! x")
  /\ exists mk i pre c rest,
       rightmost_marker (of_string "Hi. Yo! x") mk i /\
       nth_error mk 0 = Some c /\
       of_string "Hi. Yo! x" = pre ++ c :: rest /\ length pre = i /\
       decode_tokens char_provider (of_string "Hi. Yo! x y") (Some 9) true
       = Ok (pre ++ [c]) /\
       In c terminators /\ c <> 0x20.
Proof.
  split; [reflexivity |]. split; [exact has_marker_example |].
  apply (@preserved_result_ends_with_terminator _ _ _ char_provider
           (of_string "Hi. Yo! x y") 9 (of_string "Hi. Yo! x")).
  - reflexivity.
  - exact has_marker_example.
Defined.

(** * Further properties of the provider *)

(** ** More facts about [rstrip] and occurrences *)

Module MoreFacts.
Import Py PyFacts StripFacts LoopFacts MarkerFacts RuleFacts.

Lemma rstrip_is_prefix (s : str) :
  exists ws, s = rstrip s ++ ws /\ all_space ws.
Proof.
  induction s as [|a s IH] using rev_ind.
  - exists []. split; [reflexivity | intros c []].
  - destruct (isspace a) eqn:Ha.
    + rewrite rstrip_snoc_space by exact Ha.
      destruct IH as (ws & Hs & Hws). exists (ws ++ [a]). split.
      * rewrite app_assoc, <- Hs. reflexivity.
      * intros c Hc. apply in_app_or in Hc. destruct Hc as [Hc | [<- | []]];
          [apply Hws, Hc | exact Ha].
    + rewrite rstrip_snoc_nonspace by exact Ha.
      exists []. split; [symmetry; apply app_nil_r | intros c []].
Qed.

Lemma rstrip_all_space (s : str) : all_space s -> rstrip s = [].
Proof.
  induction s as [|a s IH] using rev_ind; intros Hs; [reflexivity |].
  rewrite rstrip_snoc_space.
  - apply IH. intros c Hc. apply Hs, in_or_app. now left.
  - apply Hs, in_or_app. right. now left.
Qed.

Lemma rstrip_app_length (a b : str) :
  (length (rstrip a) <= length (rstrip (a ++ b)))%nat.
Proof.
  induction b as [|x b IH] using rev_ind.
  - rewrite app_nil_r. lia.
  - rewrite app_assoc. destruct (isspace x) eqn:Hx.
    + rewrite rstrip_snoc_space by exact Hx. exact IH.
    + rewrite rstrip_snoc_nonspace by exact Hx.
      pose proof (rstrip_length a). rewrite !length_app. lia.
Qed.

Lemma rstrip_app_nonspace (pre rest : str) (c : char) :
  isspace c = false ->
  rstrip ((pre ++ [c]) ++ rest) = (pre ++ [c]) ++ rstrip rest.
Proof.
  intros Hc. induction rest as [|x rest IH] using rev_ind.
  - rewrite rstrip_nil, !app_nil_r. apply rstrip_snoc_nonspace, Hc.
  - rewrite app_assoc. destruct (isspace x) eqn:Hx.
    + rewrite !rstrip_snoc_space by exact Hx. exact IH.
    + rewrite !rstrip_snoc_nonspace by exact Hx. symmetry. apply app_assoc.
Qed.

Lemma prefix_of_common (a b x y : str) :
  a ++ x = b ++ y -> (length a <= length b)%nat -> is_prefix a b.
Proof.
  intros Heq Hlen. exists (skipn (length a) b).
  assert (firstn (length a) b = a) as Ha.
  { pose proof (f_equal (firstn (length a)) Heq) as H.
    rewrite !firstn_app, Nat.sub_diag, firstn_all in H. simpl in H.
    rewrite app_nil_r in H.
    replace (length a - length b)%nat with 0%nat in H by lia.
    simpl in H. rewrite app_nil_r in H. symmetry. exact H. }
  rewrite <- Ha at 1. symmetry. apply firstn_skipn.
Qed.

Lemma occurs_at_app (sub t more : str) (i : nat) :
  occurs_at sub t i -> occurs_at sub (t ++ more) i.
Proof.
  intros (pre & post & -> & <-). exists pre, (post ++ more). split; [| reflexivity].
  rewrite <- !app_assoc. reflexivity.
Qed.

Lemma occurs_at_app_inv (sub t more : str) (i : nat) :
  occurs_at sub (t ++ more) i -> (i + length sub <= length t)%nat ->
  occurs_at sub t i.
Proof.
  intros (pre & post & Heq & <-) Hlen.
  exists pre, (firstn (length t - (length pre + length sub)) post). split; [| reflexivity].
  assert (t = firstn (length t) (pre ++ sub ++ post)) as H.
  { rewrite <- Heq, firstn_app, Nat.sub_diag, firstn_all. simpl.
    symmetry. apply app_nil_r. }
  rewrite H at 1.
  rewrite firstn_app, (@firstn_all2 _ (length t) pre) by lia.
  f_equal.
  rewrite firstn_app, (@firstn_all2 _ (length t - length pre)%nat sub) by lia.
  f_equal. f_equal. lia.
Qed.

Lemma marker_at_app (t more mk : str) (i : nat) :
  marker_at t mk i -> marker_at (t ++ more) mk i.
Proof. intros [Hin Hocc]. split; [exact Hin | apply occurs_at_app, Hocc]. Qed.

Lemma marker_length (mk : str) :
  In mk sentence_endings -> (1 <= length mk <= 2)%nat.
Proof.
  intros Hin. destruct (marker_shape Hin) as (c & _ & _ & _ & [-> | ->]); simpl; lia.
Qed.

(** The result at a found index: the text up to and including that index. *)
Lemma finish_at (s mk : str) (i : nat) :
  find_last_end s sentence_endings = Z.of_nat i ->
  marker_at s mk i ->
  finish s true = firstn (i + 1) s /\ length (finish s true) = (i + 1)%nat.
Proof.
  intros Hfind Hm.
  destruct (snap_at_marker Hm) as (c & pre & rest & Hterm & _ & _ & Hlen & Hfst & _).
  rewrite (@finish_found s i Hfind), Hfst.
  rewrite rstrip_snoc_nonspace by (apply terminator_not_space, Hterm).
  split; [reflexivity |]. rewrite length_app. simpl. lia.
Qed.

Lemma finish_is_prefix (s : str) (b : bool) : is_prefix (finish s b) s.
Proof.
  destruct b.
  - destruct (find_last_end_cases s) as [(mk & i & Hfind & Hright) | [Hfind _]].
    + destruct (finish_at Hfind (proj1 Hright)) as [-> _].
      exists (skipn (i + 1) s). symmetry. apply firstn_skipn.
    + rewrite (@finish_absent s Hfind).
      destruct (rstrip_is_prefix s) as (ws & Hs & _). now exists ws.
  - rewrite finish_false. destruct (rstrip_is_prefix s) as (ws & Hs & _). now exists ws.
Qed.

Lemma finish_no_trailing_space (s : str) (b : bool) :
  no_trailing_space (finish s b).
Proof.
  destruct b; [| rewrite finish_false; apply rstrip_no_trailing_space].
  destruct (find_last_end_cases s) as [(mk & i & Hfind & _) | [Hfind _]].
  - rewrite (@finish_found s i Hfind). apply rstrip_no_trailing_space.
  - rewrite (@finish_absent s Hfind). apply rstrip_no_trailing_space.
Qed.

Lemma finish_true_prefix_false (s : str) :
  is_prefix (finish s true) (finish s false).
Proof.
  rewrite finish_false.
  destruct (find_last_end_cases s) as [(mk & i & Hfind & Hright) | [Hfind _]].
  - destruct (snap_at_marker (proj1 Hright))
      as (c & pre & rest & Hterm & _ & Hs & _ & Hfst & _).
    destruct (finish_at Hfind (proj1 Hright)) as [-> _]. rewrite Hfst.
    exists (rstrip rest). rewrite Hs at 1.
    change (pre ++ c :: rest) with (pre ++ [c] ++ rest). rewrite app_assoc.
    apply rstrip_app_nonspace, terminator_not_space, Hterm.
  - rewrite (@finish_absent s Hfind). exists []. symmetry. apply app_nil_r.
Qed.

End MoreFacts.

(** ** Growth of the text, order of the endings, and the ends of the text *)

Module GrowthFacts.
Import Py PyFacts StripFacts LoopFacts MarkerFacts RuleFacts MoreFacts.

Lemma marker_index_le (s mk mk' : str) (i i' : nat) :
  marker_at s mk i -> marker_at s mk' i' ->
  (i + length mk <= i' + length mk')%nat -> (i <= i')%nat.
Proof.
  intros Hm Hm' Hend.
  destruct (Nat.le_gt_cases i i') as [Hle | Hgt]; [exact Hle |].
  pose proof (marker_start_end Hm Hm' ltac:(lia)) as Hge.
  apply (marker_end_start Hm Hm'). lia.
Qed.

Lemma finish_grows (t more : str) (b : bool) :
  (length (finish t b) <= length (finish (t ++ more) b))%nat.
Proof.
  destruct b; [| rewrite !finish_false; apply rstrip_app_length].
  destruct (find_last_end_cases t) as [(mk & i & Hfind & Hright) | [Hfind Hnone]];
    destruct (find_last_end_cases (t ++ more))
      as [(mk2 & i2 & Hfind2 & Hright2) | [Hfind2 Hnone2]].
  - destruct (finish_at Hfind (proj1 Hright)) as [_ ->].
    destruct (finish_at Hfind2 (proj1 Hright2)) as [_ ->].
    pose proof (marker_at_app more (proj1 Hright)) as Hm.
    pose proof (proj2 Hright2 _ _ Hm) as Hend.
    pose proof (marker_index_le Hm (proj1 Hright2) Hend). lia.
  - exfalso. apply Hnone2. exists mk, i. apply marker_at_app, Hright.
  - rewrite (@finish_absent t Hfind).
    destruct (finish_at Hfind2 (proj1 Hright2)) as [_ ->].
    pose proof (rstrip_length t) as Hlen.
    destruct Hright2 as [[Hin2 Hocc2] _].
    pose proof (marker_length Hin2) as Hmk.
    destruct (Nat.le_gt_cases (i2 + length mk2) (length t)) as [Hle | Hgt]; [| lia].
    exfalso. apply Hnone. exists mk2, i2. split; [exact Hin2 |].
    apply occurs_at_app_inv with (more := more); assumption.
  - rewrite (@finish_absent t Hfind), (@finish_absent (t ++ more) Hfind2).
    apply rstrip_app_length.
Qed.

Lemma last_end_spec_functional (s : str) (endings : list str) (a b : Z) :
  last_end_spec s endings a -> last_end_spec s endings b -> a = b.
Proof.
  intros [k e Hin Hocc Hmax | Hnone] [k' e' Hin' Hocc' Hmax' | Hnone'].
  - pose proof (Hmax _ _ Hin' Hocc'). pose proof (Hmax' _ _ Hin Hocc). lia.
  - exfalso. exact (Hnone' _ _ Hin Hocc).
  - exfalso. exact (Hnone _ _ Hin' Hocc').
  - reflexivity.
Qed.

Lemma last_end_spec_perm (s : str) (endings endings' : list str) (a : Z) :
  Permutation endings endings' ->
  last_end_spec s endings a -> last_end_spec s endings' a.
Proof.
  intros Hperm [k e Hin Hocc Hmax | Hnone].
  - apply last_end_found with (e := e).
    + apply (Permutation_in _ Hperm Hin).
    + exact Hocc.
    + intros e' j Hin'. apply Hmax.
      apply (Permutation_in _ (Permutation_sym Hperm) Hin').
  - apply last_end_absent. intros e j Hin. apply Hnone.
    apply (Permutation_in _ (Permutation_sym Hperm) Hin).
Qed.

Lemma all_space_no_marker (s : str) : all_space s -> ~ has_marker s.
Proof.
  intros Hs (mk & i & Hin & Hocc).
  destruct (marker_shape Hin) as (c & _ & Hc & _ & Hmk).
  assert (nth_error s (i + 0) = Some c) as Hnth
    by (apply (occurs_at_nth 0 Hocc); destruct Hmk as [-> | ->]; reflexivity).
  apply nth_error_In in Hnth. apply Hs in Hnth. congruence.
Qed.

(** The one-character markers are the full-width ones. *)
Lemma single_marker_not_ascii (c : char) :
  In [c] sentence_endings -> ~ In c [0x2E; 0x21; 0x3F].
Proof.
  intros Hin Hc. simpl in Hin, Hc.
  repeat (destruct Hin as [Hin | Hin]; [try discriminate Hin |]); try contradiction;
    injection Hin as <-;
    repeat (destruct Hc as [Hc | Hc]; [discriminate Hc |]); contradiction.
Qed.

Lemma ascii_terminator_not_space (c : char) :
  In c [0x2E; 0x21; 0x3F] -> isspace c = false.
Proof.
  intros H. simpl in H.
  repeat (destruct H as [<- | H]; [reflexivity |]). contradiction.
Qed.

(** A text that ends with '.', '!' or '?' loses at least that last
    character when a marker occurs in it. *)
Lemma finish_final_ascii (body : str) (c : char) :
  In c [0x2E; 0x21; 0x3F] -> has_marker (body ++ [c]) ->
  (length (finish (body ++ [c]) true) <= length body)%nat.
Proof.
  intros Hc Hhas.
  destruct (find_last_end_cases (body ++ [c]))
    as [(mk & i & Hfind & Hright) | [_ Hnone]]; [| contradiction].
  destruct (finish_at Hfind (proj1 Hright)) as [_ ->].
  destruct Hright as [[Hin Hocc] _].
  pose proof (occurs_at_bound Hocc) as Hb. rewrite length_app in Hb. simpl in Hb.
  destruct (marker_shape Hin) as (c' & _ & _ & _ & [-> | ->]); simpl in Hb; [| lia].
  destruct (Nat.eq_dec i (length body)) as [-> | Hne]; [| lia].
  exfalso.
  assert (nth_error (body ++ [c]) (length body + 0) = Some c') as Hnth
    by (apply (occurs_at_nth 0 Hocc); reflexivity).
  rewrite Nat.add_0_r, nth_error_app2, Nat.sub_diag in Hnth by lia.
  simpl in Hnth. injection Hnth as ->.
  exact (single_marker_not_ascii Hin Hc).
Qed.

End GrowthFacts.

(** ** The truncation routine, further *)

Section Further.
Import Py PyFacts StripFacts LoopFacts MarkerFacts RuleFacts MoreFacts GrowthFacts.

Context {E Client Kwargs : Type}.
Implicit Types (self : OpenAI E Client Kwargs) (T : list token) (m : Z) (b : bool).

(** X1. With a limit, the result is a prefix of the text decoded from the
    slice: the method only ever cuts at the end, and returns no more
    characters than were decoded. *)
Theorem decode_tokens_result_prefix self T m b (text : str) :
  decode (tokenizer self) (slice_to T m) = Ok text ->
  exists out,
    decode_tokens self T (Some m) b = Ok out /\
    is_prefix out text /\ (length out <= length text)%nat.
Proof.
  intros Hdec. exists (finish text b).
  split; [apply decode_tokens_limit_ok, Hdec |].
  pose proof (finish_is_prefix text b) as Hp. split; [exact Hp |].
  destruct Hp as [rest Hrest]. rewrite Hrest at 2. rewrite length_app. lia.
Qed.

(** X2. With a limit, whatever the flag, a returned string has no trailing
    whitespace: right-stripping it again changes nothing. *)
Theorem decode_tokens_no_trailing_space self T m b (out : str) :
  decode_tokens self T (Some m) b = Ok out ->
  no_trailing_space out /\ rstrip out = out.
Proof.
  rewrite decode_tokens_limit.
  destruct (decode (tokenizer self) (slice_to T m)) as [text | e]; simpl; [| discriminate].
  intros H. injection H as <-.
  pose proof (finish_no_trailing_space text b) as Hns.
  split; [exact Hns | apply rstrip_fixed_iff, Hns].
Qed.

(** X3. On the same token list and limit, the string returned with
    [preserve_sentence] true is a prefix of the one returned with it
    false. *)
Theorem preserve_sentence_prefix self T (context_length : option Z) (o1 o2 : str) :
  decode_tokens self T context_length true = Ok o1 ->
  decode_tokens self T context_length false = Ok o2 ->
  is_prefix o1 o2.
Proof.
  destruct context_length as [m |].
  - rewrite !decode_tokens_limit.
    destruct (decode (tokenizer self) (slice_to T m)) as [text | e]; simpl; [| discriminate].
    intros H1 H2. injection H1 as <-. injection H2 as <-.
    apply finish_true_prefix_false.
  - rewrite !decode_tokens_no_limit. intros H1 H2.
    assert (o1 = o2) as -> by congruence.
    exists []. symmetry. apply app_nil_r.
Qed.

(** X4. Tokens past a non-negative limit do not matter: two token lists
    that share their first [m] tokens give the same result. *)
Theorem decode_tokens_ignores_tail self (head tail tail' : list token) m b :
  0 <= m <= Z.of_nat (length head) ->
  decode_tokens self (head ++ tail) (Some m) b
  = decode_tokens self (head ++ tail') (Some m) b.
Proof.
  intros Hm. rewrite !decode_tokens_limit, !slice_to_nonneg by lia.
  rewrite !firstn_app.
  replace (Z.to_nat m - length head)%nat with 0%nat by lia.
  reflexivity.
Qed.

(** X5. A negative limit is not rejected: [-k] drops the last [k] tokens,
    and a limit at or below minus the number of tokens leaves none. *)
Theorem decode_tokens_negative_limit self (keep dropped : list token) b :
  dropped <> [] ->
  decode_tokens self (keep ++ dropped) (Some (- Z.of_nat (length dropped))) b
  = decode_tokens self keep (Some (Z.of_nat (length keep))) b
  /\
  (forall m, m <= - Z.of_nat (length (keep ++ dropped)) ->
     decode_tokens self (keep ++ dropped) (Some m) b
     = decode_tokens self [] (Some 0) b).
Proof.
  intros Hne.
  assert (0 < length dropped)%nat as Hpos
    by (destruct dropped; [contradiction | simpl; lia]).
  split.
  - rewrite !decode_tokens_limit.
    rewrite (@slice_to_all _ keep (Z.of_nat (length keep))) by lia.
    unfold slice_to.
    destruct (Z.ltb_spec (- Z.of_nat (length dropped)) 0) as [_ | Hge]; [| lia].
    rewrite Z.opp_involutive, Nat2Z.id, length_app.
    replace (length keep + length dropped - length dropped)%nat with (length keep) by lia.
    rewrite firstn_app, Nat.sub_diag, firstn_all. simpl. rewrite app_nil_r. reflexivity.
  - intros m Hm. rewrite !decode_tokens_limit. rewrite length_app in Hm.
    unfold slice_to at 1.
    destruct (Z.ltb_spec m 0) as [_ | Hge]; [| lia].
    replace (length (keep ++ dropped) - Z.to_nat (- m))%nat with 0%nat
      by (rewrite length_app; lia).
    reflexivity.
Qed.

(** X6. After the loop, [last_end] is [-1] exactly when no marker occurs in
    the text; otherwise it is an index into the text, the character there is
    one of the six terminators, and a marker starts there. *)
Theorem last_end_in_range (text : str) :
  (find_last_end text sentence_endings = -1 /\ ~ has_marker text)
  \/
  (has_marker text /\
   0 <= find_last_end text sentence_endings < Z.of_nat (length text) /\
   exists mk c,
     marker_at text mk (Z.to_nat (find_last_end text sentence_endings)) /\
     nth_error text (Z.to_nat (find_last_end text sentence_endings)) = Some c /\
     In c terminators).
Proof.
  destruct (find_last_end_cases text) as [(mk & i & Hfind & Hright) | [Hfind Hnone]].
  - right. rewrite Hfind, Nat2Z.id.
    destruct Hright as [Hm _].
    split; [exists mk, i; exact Hm |].
    destruct (snap_at_marker Hm) as (c & pre & rest & Hterm & Hhd & _ & _ & _ & _).
    pose proof (occurs_at_bound (proj2 Hm)) as Hb.
    pose proof (marker_length (proj1 Hm)) as Hlen.
    split; [lia |].
    exists mk, c. split; [exact Hm |]. split; [| exact Hterm].
    rewrite <- (Nat.add_0_r i). apply (occurs_at_nth 0 (proj2 Hm) Hhd).
  - left. split; assumption.
Qed.

(** X7. The loop does not depend on the order of the endings: any
    rearrangement of the list leaves the same [last_end]. *)
Theorem find_last_end_order (text : str) (endings endings' : list str) :
  Permutation endings endings' ->
  find_last_end text endings = find_last_end text endings'.
Proof.
  intros Hperm.
  apply last_end_spec_functional with (s := text) (endings := endings').
  - apply last_end_spec_perm with (endings := endings); [exact Hperm |].
    apply find_last_end_correct.
  - apply find_last_end_correct.
Qed.

(** X8. When one slice decodes to a text and another to a longer text that
    starts with it, the first result is a prefix of the second, under either
    flag: decoding more never returns less. *)
Theorem decode_tokens_grows self T (T' : list token) m (m' : Z) b (t more : str) :
  decode (tokenizer self) (slice_to T m) = Ok t ->
  decode (tokenizer self) (slice_to T' m') = Ok (t ++ more) ->
  exists out out',
    decode_tokens self T (Some m) b = Ok out /\
    decode_tokens self T' (Some m') b = Ok out' /\
    is_prefix out out'.
Proof.
  intros Hd Hd'. exists (finish t b), (finish (t ++ more) b).
  split; [apply decode_tokens_limit_ok, Hd |].
  split; [apply decode_tokens_limit_ok, Hd' |].
  destruct (finish_is_prefix t b) as [r Hr].
  destruct (finish_is_prefix (t ++ more) b) as [r' Hr'].
  apply prefix_of_common with (x := r ++ more) (y := r').
  - rewrite app_assoc, <- Hr. exact Hr'.
  - apply finish_grows.
Qed.

(** X9. When the slice decodes to whitespace only, the result is the empty
    string under either flag. *)
Theorem decode_tokens_whitespace_only self T m b (text : str) :
  decode (tokenizer self) (slice_to T m) = Ok text ->
  all_space text ->
  decode_tokens self T (Some m) b = Ok [].
Proof.
  intros Hdec Hws. rewrite (decode_tokens_limit_ok _ _ _ _ Hdec). f_equal.
  destruct b.
  - rewrite (finish_no_marker (all_space_no_marker Hws)). apply rstrip_all_space, Hws.
  - rewrite finish_false. apply rstrip_all_space, Hws.
Qed.

(** X10. A '.', '!' or '?' that ends the decoded text is not a sentence end
    for the search, which wants a space after it: when a marker occurs in
    such a text, the result with [preserve_sentence] true stops before that
    last character, while with the flag false the text is returned whole. *)
Theorem final_ascii_terminator_dropped self T m (body : str) (c : char) :
  decode (tokenizer self) (slice_to T m) = Ok (body ++ [c]) ->
  In c [0x2E; 0x21; 0x3F] ->
  has_marker (body ++ [c]) ->
  exists out,
    decode_tokens self T (Some m) true = Ok out /\
    is_prefix out body /\
    decode_tokens self T (Some m) false = Ok (body ++ [c]).
Proof.
  intros Hdec Hc Hhas. exists (finish (body ++ [c]) true).
  split; [apply decode_tokens_limit_ok, Hdec |]. split.
  - destruct (finish_is_prefix (body ++ [c]) true) as [r Hr].
    apply prefix_of_common with (x := r) (y := [c]).
    + symmetry. exact Hr.
    + apply finish_final_ascii; assumption.
  - rewrite (decode_tokens_limit_ok _ _ _ _ Hdec), finish_false.
    f_equal. apply rstrip_snoc_nonspace, ascii_terminator_not_space, Hc.
Qed.

(** X11. Encoding a text and decoding the tokens: when
    [encode_text_to_tokens] returns tokens that the tokenizer decodes back to
    the text, the call without a limit returns the text as it was, and a call
    with a limit that covers all the tokens and the flag false returns it
    right-stripped, so a text with trailing whitespace does not come back. *)
Theorem encode_decode_round_trip self (text : str) (tokens : list token) :
  encode_text_to_tokens self text = Ok tokens ->
  decode (tokenizer self) tokens = Ok text ->
  (forall b,
     bind (encode_text_to_tokens self text)
          (fun toks => decode_tokens self toks None b) = Ok text)
  /\
  (forall m, Z.of_nat (length tokens) <= m ->
     bind (encode_text_to_tokens self text)
          (fun toks => decode_tokens self toks (Some m) false) = Ok (rstrip text)
     /\ (bind (encode_text_to_tokens self text)
              (fun toks => decode_tokens self toks (Some m) false) = Ok text
         <-> no_trailing_space text)).
Proof.
  intros Henc Hrt. rewrite Henc. cbv beta iota delta [bind]. split.
  - intros b. rewrite decode_tokens_no_limit. exact Hrt.
  - intros m Hm.
    assert (decode_tokens self tokens (Some m) false = Ok (rstrip text)) as Hres.
    { rewrite decode_tokens_limit, slice_to_all by exact Hm. rewrite Hrt. reflexivity. }
    split; [exact Hres |]. rewrite Hres. split.
    + intros H. injection H as H. apply rstrip_fixed_iff, H.
    + intros H. f_equal. apply rstrip_fixed_iff, H.
Qed.

End Further.

(** ** The prompt and the constructor *)

Lemma str_eqb_eq (a b : str) : str_eqb a b = true <-> a = b.
Proof.
  revert b. induction a as [|x a IH]; intros [|y b]; simpl;
    try (split; [discriminate | discriminate]); [tauto |].
  rewrite andb_true_iff, Z.eqb_eq, IH. split.
  - intros [-> ->]. reflexivity.
  - intros H. injection H as -> ->. split; reflexivity.
Qed.

Section Prompt.

Context {E Client Kwargs : Type}.
Implicit Types (self : OpenAI E Client Kwargs).

(** X12. The prompt always has three messages; the context is the content
    of the second, unchanged, and the content of the third is the question
    followed by the fixed sentence.  The prompt determines both: two calls
    that build the same prompt were given the same context and the same
    question. *)
Theorem generate_prompt_carries_inputs self (context retrieval_question : str) :
  exists system_msg context_msg question_msg,
    generate_prompt self context retrieval_question
    = [system_msg; context_msg; question_msg] /\
    dict_get context_msg (of_string "content") = Some context /\
    dict_get question_msg (of_string "content")
    = Some (retrieval_question ++
            of_string " Don't give information outside the document or repeat your findings") /\
    (forall (self' : OpenAI E Client Kwargs) (context' retrieval_question' : str),
       generate_prompt self' context' retrieval_question'
       = generate_prompt self context retrieval_question ->
       context' = context /\ retrieval_question' = retrieval_question).
Proof.
  unfold generate_prompt. do 3 eexists.
  split; [reflexivity |]. split; [reflexivity |]. split; [reflexivity |].
  intros self' context' question' Heq.
  injection Heq as Hc Hq. split; [exact Hc |].
  apply app_inv_tail in Hq. exact Hq.
Qed.

End Prompt.

Section Constructor.

Context {E Client : Type}.
Variable AsyncOpenAI : option str -> option str -> result E Client.
Variable encoding_for_model : str -> result E (Tokenizer E).

Lemma init_inv (model_name : str) (model_kwargs : kwargs)
    (api_key base_url : option str) (self : OpenAI E Client kwargs) :
  __init__ AsyncOpenAI encoding_for_model model_name model_kwargs api_key base_url
  = Ok self ->
  exists client tk,
    AsyncOpenAI api_key base_url = Ok client /\
    encoding_for_model (of_string "gpt-3.5-turbo") = Ok tk /\
    self = {| model_name := model_name;
              model_kwargs :=
                if str_eqb model_name (of_string "MiniMax-Text-01")
                then [ (of_string "max_tokens", Int 350);
                       (of_string "temperature", Float (of_string "0.1")) ]
                else model_kwargs;
              api_key := api_key;
              base_url := base_url;
              model := client;
              tokenizer := tk |}.
Proof.
  unfold __init__, bind.
  destruct (AsyncOpenAI api_key base_url) as [client | e]; [| discriminate].
  destruct (encoding_for_model (of_string "gpt-3.5-turbo")) as [tk | e]; [| discriminate].
  intros H. injection H as <-. exists client, tk. repeat split.
Qed.

(** X13. The configuration the constructor keeps: for the model name
    "MiniMax-Text-01" it is max_tokens 350 and temperature 0.1 whatever
    configuration the caller passed; for any other name it is the caller's
    configuration.  The name, the key and the URL are kept as given, and a
    missing key is not refused. *)
Theorem init_model_kwargs (name : str) (kw : kwargs)
    (key url : option str) (self : OpenAI E Client kwargs) :
  __init__ AsyncOpenAI encoding_for_model name kw key url = Ok self ->
  (name = of_string "MiniMax-Text-01" ->
   model_kwargs self
   = [ (of_string "max_tokens", Int 350);
       (of_string "temperature", Float (of_string "0.1")) ])
  /\ (name <> of_string "MiniMax-Text-01" -> model_kwargs self = kw)
  /\ model_name self = name /\ api_key self = key /\ base_url self = url.
Proof.
  intros H. destruct (init_inv _ _ _ _ H) as (client & tk & _ & _ & ->).
  cbn [model_kwargs model_name api_key base_url].
  repeat split.
  - intros ->. reflexivity.
  - intros Hne.
    destruct (str_eqb name (of_string "MiniMax-Text-01")) eqn:Heq; [| reflexivity].
    apply str_eqb_eq in Heq. contradiction.
Qed.

(** X14. The tokenizer does not follow the model: two providers built with
    any model names, configurations, keys and URLs encode every text and
    decode every token list alike, with the encoding of "gpt-3.5-turbo". *)
Theorem init_tokenizer_fixed (name name' : str) (kw kw' : kwargs)
    (key key' url url' : option str) (self self' : OpenAI E Client kwargs) :
  __init__ AsyncOpenAI encoding_for_model name kw key url = Ok self ->
  __init__ AsyncOpenAI encoding_for_model name' kw' key' url' = Ok self' ->
  encoding_for_model (of_string "gpt-3.5-turbo") = Ok (tokenizer self)
  /\ (forall text, encode_text_to_tokens self text = encode_text_to_tokens self' text)
  /\ (forall T context_length b,
        decode_tokens self T context_length b = decode_tokens self' T context_length b).
Proof.
  intros H H'.
  destruct (init_inv _ _ _ _ H) as (client & tk & _ & Htk & ->).
  destruct (init_inv _ _ _ _ H') as (client' & tk' & _ & Htk' & ->).
  assert (tk' = tk) as -> by congruence.
  split; [exact Htk |]. split; reflexivity.
Qed.

(** X15. The constructor raises nothing of its own: it raises [e] exactly
    when building the client raises [e], or the client is built and loading
    the encoding raises [e]. *)
Theorem init_raises (name : str) (kw : kwargs) (key url : option str) (e : E) :
  __init__ AsyncOpenAI encoding_for_model name kw key url = Raise e
  <->
  (AsyncOpenAI key url = Raise e
   \/ (exists client, AsyncOpenAI key url = Ok client) /\
      encoding_for_model (of_string "gpt-3.5-turbo") = Raise e).
Proof.
  unfold __init__, bind.
  destruct (AsyncOpenAI key url) as [client | e1].
  - destruct (encoding_for_model (of_string "gpt-3.5-turbo")) as [tk | e2].
    + split; [discriminate |]. intros [H | [_ H]]; discriminate.
    + split.
      * intros H. injection H as ->. right. split; [now exists client | reflexivity].
      * intros [H | [_ H]]; [discriminate |]. injection H as ->. reflexivity.
  - split.
    + intros H. injection H as ->. now left.
    + intros [H | [[client Hc] _]]; [| discriminate]. injection H as ->. reflexivity.
Qed.

End Constructor.

(** ** The further properties on concrete runs *)

Lemma decode_tokens_result_prefix_witness :
  decode (tokenizer char_provider) (Py.slice_to (of_string "Hi. Yo! x y") 9)
  = Ok (of_string "Hi. Yo! x")
  /\ exists out,
       decode_tokens char_provider (of_string "Hi. Yo! x y") (Some 9) true = Ok out /\
       is_prefix out (of_string "Hi. Yo! x") /\
       (length out <= length (of_string "Hi. Yo! x"))%nat.
Proof.
  split; [reflexivity |].
  apply (@decode_tokens_result_prefix _ _ _ char_provider (of_string "Hi. Yo! x y") 9 true
           (of_string "Hi. Yo! x")).
  reflexivity.
Defined.

Lemma decode_tokens_no_trailing_space_witness :
  decode_tokens char_provider (of_string "ab  cd") (Some 4) false = Ok (of_string "ab")
  /\ no_trailing_space (of_string "ab")
  /\ Py.rstrip (of_string "ab") = of_string "ab".
Proof.
  split; [reflexivity |].
  apply (@decode_tokens_no_trailing_space _ _ _ char_provider (of_string "ab  cd") 4 false
           (of_string "ab")).
  reflexivity.
Defined.

Lemma preserve_sentence_prefix_witness :
  decode_tokens char_provider (of_string "Hi. Yo  ") (Some 8) true = Ok (of_string "Hi.")
  /\ decode_tokens char_provider (of_string "Hi. Yo  ") (Some 8) false
     = Ok (of_string "Hi. Yo")
  /\ is_prefix (of_string "Hi.") (of_string "Hi. Yo").
Proof.
  split; [reflexivity |]. split; [reflexivity |].
  apply (@preserve_sentence_prefix _ _ _ char_provider (of_string "Hi. Yo  ") (Some 8)
           (of_string "Hi.") (of_string "Hi. Yo")); reflexivity.
Defined.

Lemma decode_tokens_ignores_tail_witness :
  0 <= 3 <= Z.of_nat (length (of_string "Hi. "))
  /\ decode_tokens char_provider (of_string "Hi. " ++ of_string "Yo") (Some 3) true
     = decode_tokens char_provider (of_string "Hi. " ++ [-1]) (Some 3) true.
Proof.
  split; [simpl; lia |].
  apply (@decode_tokens_ignores_tail _ _ _ char_provider (of_string "Hi. ")
           (of_string "Yo") [-1] 3 true).
  simpl. lia.
Defined.

Lemma decode_tokens_negative_limit_witness :
  of_string "ef" <> []
  /\ decode_tokens char_provider (of_string "abc. d" ++ of_string "ef")
       (Some (- Z.of_nat (length (of_string "ef")))) false
     = decode_tokens char_provider (of_string "abc. d")
         (Some (Z.of_nat (length (of_string "abc. d")))) false.
Proof.
  split; [discriminate |].
  apply (proj1 (@decode_tokens_negative_limit _ _ _ char_provider (of_string "abc. d")
                  (of_string "ef") false ltac:(discriminate))).
Defined.

Lemma find_last_end_order_witness :
  Permutation sentence_endings (rev sentence_endings)
  /\ find_last_end (of_string "Hi. Yo! x") sentence_endings
     = find_last_end (of_string "Hi. Yo! x") (rev sentence_endings).
Proof.
  split; [apply Permutation_rev |].
  apply (@find_last_end_order (of_string "Hi. Yo! x") sentence_endings
           (rev sentence_endings)).
  apply Permutation_rev.
Defined.

Lemma decode_tokens_grows_witness :
  decode (tokenizer char_provider) (Py.slice_to (of_string "Hi. Yo! x") 5)
  = Ok (of_string "Hi. Y")
  /\ decode (tokenizer char_provider) (Py.slice_to (of_string "Hi. Yo! x") 9)
     = Ok (of_string "Hi. Y" ++ of_string "o! x")
  /\ exists out out',
       decode_tokens char_provider (of_string "Hi. Yo! x") (Some 5) true = Ok out /\
       decode_tokens char_provider (of_string "Hi. Yo! x") (Some 9) true = Ok out' /\
       is_prefix out out'.
Proof.
  split; [reflexivity |]. split; [reflexivity |].
  apply (@decode_tokens_grows _ _ _ char_provider (of_string "Hi. Yo! x")
           (of_string "Hi. Yo! x") 5 9 true (of_string "Hi. Y") (of_string "o! x"));
    reflexivity.
Defined.

Lemma decode_tokens_whitespace_only_witness :
  decode (tokenizer char_provider) (Py.slice_to [0x20; 0x0A; 0x3000; 0x61] 3)
  = Ok [0x20; 0x0A; 0x3000]
  /\ all_space [0x20; 0x0A; 0x3000]
  /\ decode_tokens char_provider [0x20; 0x0A; 0x3000; 0x61] (Some 3) true = Ok [].
Proof.
  assert (all_space [0x20; 0x0A; 0x3000]) as Hws
    by (intros c [<- | [<- | [<- | []]]]; reflexivity).
  split; [reflexivity |]. split; [exact Hws |].
  apply (@decode_tokens_whitespace_only _ _ _ char_provider [0x20; 0x0A; 0x3000; 0x61] 3
           true [0x20; 0x0A; 0x3000] eq_refl Hws).
Defined.

Lemma has_marker_final_example : has_marker (of_string "Hi. Yo" ++ [0x2E]).
Proof.
  exists [0x2E; 0x20], 2%nat. split.
  - simpl. tauto.
  - exists (of_string "Hi"), (of_string "Yo."). split; reflexivity.
Qed.

Lemma final_ascii_terminator_dropped_witness :
  decode (tokenizer char_provider) (Py.slice_to (of_string "Hi. Yo.") 7)
  = Ok (of_string "Hi. Yo" ++ [0x2E])
  /\ In 0x2E [0x2E; 0x21; 0x3F]
  /\ has_marker (of_string "Hi. Yo" ++ [0x2E])
  /\ exists out,
       decode_tokens char_provider (of_string "Hi. Yo.") (Some 7) true = Ok out /\
       is_prefix out (of_string "Hi. Yo") /\
       decode_tokens char_provider (of_string "Hi. Yo.") (Some 7) false
       = Ok (of_string "Hi. Yo" ++ [0x2E]).
Proof.
  split; [reflexivity |]. split; [simpl; tauto |].
  split; [exact has_marker_final_example |].
  apply (@final_ascii_terminator_dropped _ _ _ char_provider (of_string "Hi. Yo.") 7
           (of_string "Hi. Yo") 0x2E).
  - reflexivity.
  - simpl. tauto.
  - exact has_marker_final_example.
Defined.

Lemma encode_decode_round_trip_witness :
  encode_text_to_tokens char_provider (of_string "ab ") = Ok (of_string "ab ")
  /\ decode (tokenizer char_provider) (of_string "ab ") = Ok (of_string "ab ")
  /\ (forall b,
        bind (encode_text_to_tokens char_provider (of_string "ab "))
             (fun toks => decode_tokens char_provider toks None b)
        = Ok (of_string "ab ")).
Proof.
  split; [reflexivity |]. split; [reflexivity |].
  exact (proj1 (@encode_decode_round_trip _ _ _ char_provider (of_string "ab ")
                  (of_string "ab ") eq_refl eq_refl)).
Defined.

Lemma init_model_kwargs_witness :
  exists self,
    __init__ (fun _ _ => @Ok KeyError unit tt) (fun _ => Ok char_tokenizer)
      (of_string "gpt-4") DEFAULT_MODEL_KWARGS None None = Ok self
    /\ (of_string "gpt-4" <> of_string "MiniMax-Text-01" ->
        model_kwargs self = DEFAULT_MODEL_KWARGS)
    /\ model_name self = of_string "gpt-4".
Proof.
  eexists. split; [reflexivity |].
  pose proof (@init_model_kwargs _ _ (fun _ _ => @Ok KeyError unit tt)
                (fun _ => Ok char_tokenizer)
                (of_string "gpt-4") DEFAULT_MODEL_KWARGS None None _ eq_refl) as H.
  split; [apply H | apply H].
Defined.

Lemma init_tokenizer_fixed_witness :
  exists self self',
    __init__ (fun _ _ => @Ok KeyError unit tt) (fun _ => Ok char_tokenizer)
      (of_string "gpt-4") DEFAULT_MODEL_KWARGS None None = Ok self
    /\ __init__ (fun _ _ => @Ok KeyError unit tt) (fun _ => Ok char_tokenizer)
         (of_string "MiniMax-Text-01") [] (Some (of_string "k")) None = Ok self'
    /\ forall T context_length b,
         decode_tokens self T context_length b = decode_tokens self' T context_length b.
Proof.
  do 2 eexists. split; [reflexivity |]. split; [reflexivity |].
  apply (@init_tokenizer_fixed _ _ (fun _ _ => @Ok KeyError unit tt)
           (fun _ => Ok char_tokenizer)
           (of_string "gpt-4") (of_string "MiniMax-Text-01") DEFAULT_MODEL_KWARGS []
           None (Some (of_string "k")) None None _ _ eq_refl eq_refl).
Defined.
